(** * Token codec, password hash and NintendoBase64 of [src/util.ts]

    A shallow embedding of the pure core of [src/util.ts]:
    [nintendoPasswordHash], [nintendoBase64Decode], [nintendoBase64Encode],
    [generateToken], [decryptToken] and [unpackToken], and of its helpers
    [nascError], [sendForgotPasswordEmail], [makeSafeQs],
    [getValueFromQueryString], [getValueFromHeaders] and [mapToObject].

    Conventions.
    - A Node [Buffer] is a [list byte].
    - A JavaScript string is the list of its UTF-16 code units ([list Z]).
    - A JavaScript [number] or [bigint] field is a [Z]; the range checks that
      Node's [Buffer] writers perform are written out.
    - A call that can throw (or a promise that can reject) returns a
      [result]; [Throw] carries the Node error code.
    - The primitives of [node:crypto] and [node-rsa] (SHA-256, HMAC-SHA1, the
      AES-128 block function, RSA-OAEP) are the fields of the class [Crypto];
      the CBC chaining and the PKCS#7 padding that [createCipheriv] applies
      are written out over the block function.
    - The random draws of [generateToken] are an explicit [Entropy]
      argument, and the keys fetched from the cache are a [ServiceKeys]
      argument; the cache lookups and the key imports of [NodeRSA] are
      taken to succeed.
    - An object is the list of its own enumerable properties and inherits
      from [Object.prototype]; the native [TypeError] and [URIError] are
      the [Abrupt] case of a [completion].
    - [Date.now()] and [config.website_base] are explicit arguments. *)

From Stdlib Require DecimalPos DecimalZ.
From Stdlib.Strings Require Import String.
From Stdlib Require Import ZArith List Lia Bool.
From Stdlib.Strings Require Import Ascii Byte.
Import ListNotations.
Local Open Scope Z_scope.
Set Warnings "-register-all".

(* ================================================================= *)
(** * Results of calls that may throw *)

(** What this module can raise: the [RangeError] of a [Buffer] read or write
    outside the buffer or of a value that does not fit (codes
    ERR_OUT_OF_RANGE and ERR_BUFFER_OUT_OF_BOUNDS), and the errors of
    [node:crypto] and [node-rsa] by their codes. *)
Inductive Error : Type :=
| RangeError                         (* a Buffer access out of range *)
| ERR_CRYPTO_INVALID_KEYLEN          (* createCipheriv: key is not 16 bytes *)
| ERR_CRYPTO_INVALID_IV              (* createCipheriv: iv is not 16 bytes *)
| ERR_OSSL_WRONG_FINAL_BLOCK_LENGTH  (* decipher.final: not whole blocks *)
| ERR_OSSL_BAD_DECRYPT               (* decipher.final: bad PKCS#7 padding *)
| ERR_RSA_DECRYPT.                   (* node-rsa: error during decryption *)

Inductive result (A : Type) : Type :=
| Ok (a : A)
| Throw (e : Error).
Arguments Ok {A} a.
Arguments Throw {A} e.

Definition bind {A B : Type} (r : result A) (k : A -> result B) : result B :=
  match r with
  | Ok a => k a
  | Throw e => Throw e
  end.

Notation "x <- r ;; k" := (bind r (fun x => k))
  (at level 61, r at next level, right associativity).

(* ================================================================= *)
(** * Bytes *)

Definition Buffer : Type := list byte.

Definition b2z (b : byte) : Z := Z.of_N (Byte.to_N b).

(** The byte a typed-array store keeps of an integer: its value modulo 256. *)
Definition z2b (z : Z) : byte :=
  match Byte.of_N (Z.to_N (z mod 256)) with
  | Some b => b
  | None => x00
  end.

Definition byte_xor (a b : byte) : byte := z2b (Z.lxor (b2z a) (b2z b)).

Definition xor_bytes (a b : Buffer) : Buffer :=
  map (fun p => byte_xor (fst p) (snd p)) (combine a b).

(** [Buffer.equals] *)
Fixpoint Buffer_equals (a b : Buffer) : bool :=
  match a, b with
  | [], [] => true
  | x :: a', y :: b' => Byte.eqb x y && Buffer_equals a' b'
  | _, _ => false
  end.

(** [Buffer.alloc(n)]: [n] zero bytes. *)
Definition Buffer_alloc (n : nat) : Buffer := repeat x00 n.

(** [buf.subarray(start, end)]: negative indices count from the end, both
    ends are clamped to the buffer, and an inverted range is empty. *)
Definition clamp_index (len i : Z) : Z :=
  if i <? 0 then Z.max (len + i) 0 else Z.min i len.

Definition subarray (buf : Buffer) (start stop : Z) : Buffer :=
  let len := Z.of_nat (length buf) in
  let s := clamp_index len start in
  let e := clamp_index len stop in
  firstn (Z.to_nat (e - s)) (skipn (Z.to_nat s) buf).

(** [buf.subarray(start)] *)
Definition subarray_from (buf : Buffer) (start : Z) : Buffer :=
  subarray buf start (Z.of_nat (length buf)).

(** Little-endian bytes of an integer, and back. *)
Fixpoint le_bytes (n : nat) (v : Z) : Buffer :=
  match n with
  | O => []
  | S n' => z2b v :: le_bytes n' (v / 256)
  end.

Fixpoint le_value (bs : Buffer) : Z :=
  match bs with
  | [] => 0
  | b :: r => b2z b + 256 * le_value r
  end.

(** The bounds check shared by the readers and writers of [Buffer]. *)
Definition in_bounds (buf : Buffer) (off n : nat) : bool :=
  (off + n <=? length buf)%nat.

Definition write_at (buf : Buffer) (off : nat) (bs : Buffer) : result Buffer :=
  if in_bounds buf off (length bs)
  then Ok (firstn off buf ++ bs ++ skipn (off + length bs) buf)
  else Throw RangeError.

Definition read_at (buf : Buffer) (off n : nat) : result Buffer :=
  if in_bounds buf off n
  then Ok (firstn n (skipn off buf))
  else Throw RangeError.

(** A writer first checks that the value fits the field. *)
Definition write_uint (n : nat) (buf : Buffer) (value : Z) (off : nat)
  : result Buffer :=
  if (0 <=? value) && (value <? 256 ^ Z.of_nat n)
  then write_at buf off (le_bytes n value)
  else Throw RangeError.

Definition writeUInt8 := write_uint 1.
Definition writeUInt32LE := write_uint 4.
Definition writeBigUInt64LE := write_uint 8.

Definition read_uint (n : nat) (buf : Buffer) (off : nat) : result Z :=
  bs <- read_at buf off n ;; Ok (le_value bs).

Definition readUInt8 := read_uint 1.
Definition readUInt32LE := read_uint 4.
Definition readBigUInt64LE := read_uint 8.

(** [buf.readInt8(off)]: the byte as a signed 8-bit integer. *)
Definition as_int8 (v : Z) : Z := if v <? 128 then v else v - 256.

Definition readInt8 (buf : Buffer) (off : nat) : result Z :=
  v <- read_uint 1 buf off ;;
  Ok (as_int8 v).

(* ================================================================= *)
(** * JavaScript strings *)

(** A string is the list of its UTF-16 code units. *)
Definition JSString : Type := list Z.

(** The code unit of an ASCII character. *)
Definition chr (a : ascii) : Z := Z.of_N (N_of_ascii a).
Arguments chr a%_char.

(** [s.replaceAll(from, to)] for one-character [from] and [to]. *)
Definition replaceAll (from to : Z) (s : JSString) : JSString :=
  map (fun c => if c =? from then to else c) s.

(** [Buffer.from(s)] (UTF-8): a surrogate pair is one 4-byte sequence, a
    lone surrogate becomes U+FFFD. *)
Definition utf8_replacement : Buffer := [xef; xbf; xbd].

Fixpoint utf8_encode (s : JSString) : Buffer :=
  match s with
  | [] => []
  | c :: r =>
    if c <? 0x80 then z2b c :: utf8_encode r
    else if c <? 0x800 then
      z2b (0xC0 + c / 64) :: z2b (0x80 + c mod 64) :: utf8_encode r
    else if (0xD800 <=? c) && (c <? 0xDC00) then
      match r with
      | d :: r' =>
        if (0xDC00 <=? d) && (d <? 0xE000) then
          let cp := 0x10000 + (c - 0xD800) * 1024 + (d - 0xDC00) in
          z2b (0xF0 + cp / 262144) :: z2b (0x80 + (cp / 4096) mod 64)
            :: z2b (0x80 + (cp / 64) mod 64) :: z2b (0x80 + cp mod 64)
            :: utf8_encode r'
        else utf8_replacement ++ utf8_encode r
      | [] => utf8_replacement
      end
    else if (0xDC00 <=? c) && (c <? 0xE000) then
      utf8_replacement ++ utf8_encode r
    else
      z2b (0xE0 + c / 4096) :: z2b (0x80 + (c / 64) mod 64)
        :: z2b (0x80 + c mod 64) :: utf8_encode r
  end.

(** [buf.toString('hex')]: two lowercase hexadecimal digits per byte. *)
Definition hex_digit (n : Z) : Z :=
  if n <? 10 then chr "0" + n else chr "a" + (n - 10).

Definition toString_hex (b : Buffer) : JSString :=
  flat_map (fun x => [hex_digit (b2z x / 16); hex_digit (b2z x mod 16)]) b.

(* ================================================================= *)
(** * Base64 as Node implements it *)

(** The character of a 6-bit value in the standard alphabet. *)
Definition base64_char (n : Z) : Z :=
  if n <? 26 then chr "A" + n
  else if n <? 52 then chr "a" + (n - 26)
  else if n <? 62 then chr "0" + (n - 52)
  else if n =? 62 then chr "+"
  else chr "/".

(** [buf.toString('base64')]: standard alphabet, [=] padding. *)
Fixpoint toString_base64 (b : Buffer) : JSString :=
  match b with
  | [] => []
  | [x] =>
    [base64_char (b2z x / 4); base64_char ((b2z x mod 4) * 16);
     chr "="; chr "="]
  | [x; y] =>
    [base64_char (b2z x / 4);
     base64_char ((b2z x mod 4) * 16 + b2z y / 16);
     base64_char ((b2z y mod 16) * 4); chr "="]
  | x :: y :: z :: r =>
    base64_char (b2z x / 4)
      :: base64_char ((b2z x mod 4) * 16 + b2z y / 16)
      :: base64_char ((b2z y mod 16) * 4 + b2z z / 64)
      :: base64_char (b2z z mod 64)
      :: toString_base64 r
  end.

(** The 6-bit value of a character; Node's decoder also accepts the
    URL-safe [-] and [_]. *)
Definition unbase64 (c : Z) : option Z :=
  if (chr "A" <=? c) && (c <=? chr "Z") then Some (c - chr "A")
  else if (chr "a" <=? c) && (c <=? chr "z") then Some (c - chr "a" + 26)
  else if (chr "0" <=? c) && (c <=? chr "9") then Some (c - chr "0" + 52)
  else if (c =? chr "+") || (c =? chr "-") then Some 62
  else if (c =? chr "/") || (c =? chr "_") then Some 63
  else None.

(** The decoder skips characters outside the alphabet and stops at [=]. *)
Fixpoint base64_sextets (s : JSString) : list Z :=
  match s with
  | [] => []
  | c :: r =>
    match unbase64 c with
    | Some v => v :: base64_sextets r
    | None => if c =? chr "=" then [] else base64_sextets r
    end
  end.

Fixpoint base64_bytes (l : list Z) : Buffer :=
  match l with
  | a :: b :: c :: d :: r =>
    z2b (a * 4 + b / 16) :: z2b ((b mod 16) * 16 + c / 4)
      :: z2b ((c mod 4) * 64 + d) :: base64_bytes r
  | [a; b; c] => [z2b (a * 4 + b / 16); z2b ((b mod 16) * 16 + c / 4)]
  | [a; b] => [z2b (a * 4 + b / 16)]
  | _ => []
  end.

(** [Buffer.from(s, 'base64')] *)
Definition Buffer_from_base64 (s : JSString) : Buffer :=
  base64_bytes (base64_sextets s).

(* ================================================================= *)
(** * NintendoBase64 (util.ts, lines 43-51) *)

Definition nintendoBase64Decode (encoded : JSString) : Buffer :=
  let encoded :=
    replaceAll (chr "*") (chr "=")
      (replaceAll (chr "-") (chr "/")
        (replaceAll (chr ".") (chr "+") encoded)) in
  Buffer_from_base64 encoded.

(** The argument is a [string | Buffer]; [Buffer.from] encodes a string as
    UTF-8 and copies a buffer. *)
Definition Buffer_from (decoded : JSString + Buffer) : Buffer :=
  match decoded with
  | inl s => utf8_encode s
  | inr b => b
  end.

Definition nintendoBase64Encode (decoded : JSString + Buffer) : JSString :=
  let encoded := toString_base64 (Buffer_from decoded) in
  replaceAll (chr "=") (chr "*")
    (replaceAll (chr "/") (chr "-")
      (replaceAll (chr "+") (chr ".") encoded)).

(* ================================================================= *)
(** * Cryptographic primitives *)

(** What [node:crypto] and [node-rsa] provide.  Keys are the key bytes as
    the cache returns them; [rsa_oaep_encrypt] takes the OAEP seed it draws
    as its second argument; [rsa_oaep_decrypt] is [None] where [node-rsa]
    throws. *)
Class Crypto : Type := {
  sha256 : Buffer -> Buffer;
  hmac_sha1 : Buffer -> Buffer -> Buffer;
  aes128_encrypt_block : Buffer -> Buffer -> Buffer;
  aes128_decrypt_block : Buffer -> Buffer -> Buffer;
  rsa_oaep_encrypt : Buffer -> Buffer -> Buffer -> Buffer;
  rsa_oaep_decrypt : Buffer -> Buffer -> option Buffer
}.

(** A small instance, used to run the codec on concrete inputs: the block
    function XORs the key into the block, the RSA ciphertext is the message
    followed by the seed and a fixed filler, cut to 128 bytes. *)
Definition filler (n : nat) : Buffer :=
  map (fun i => z2b (Z.of_nat i * 37 + 11)) (seq 0 n).

Definition xor_crypto : Crypto := {|
  sha256 := fun m => firstn 32 (m ++ repeat x00 32);
  hmac_sha1 := fun k m =>
    firstn 20 (xor_bytes (k ++ repeat x00 20) (m ++ repeat x00 20));
  aes128_encrypt_block := fun k b => xor_bytes b k;
  aes128_decrypt_block := fun k b => xor_bytes b k;
  rsa_oaep_encrypt := fun _ seed m => firstn 128 (m ++ seed ++ filler 128);
  rsa_oaep_decrypt := fun _ ct =>
    if (length ct =? 128)%nat then Some (firstn 16 ct) else None
|}.

(* ================================================================= *)
(** * [Math.random] and the two points *)

(** A double in the interval [0, 1): [mantissa * 2 ^ (- exponent)]. *)
Record JSDouble01 : Type := {
  mantissa : Z;
  exponent : Z
}.

Definition is_double01 (r : JSDouble01) : Prop :=
  0 <= mantissa r < 2 ^ 53 /\ 53 <= exponent r.

(** Round-to-nearest, ties-to-even, to the 53 significant bits of a
    double. *)
Definition round53 (x : Z) : Z :=
  let s := Z.log2 x - 52 in
  if s <=? 0 then x
  else
    let q := x / 2 ^ s in
    let r := x mod 2 ^ s in
    let h := 2 ^ (s - 1) in
    (if (h <? r) || ((r =? h) && Z.odd q) then q + 1 else q) * 2 ^ s.

(** [~~x] on an integer-valued [x]: ToInt32. *)
Definition ToInt32 (z : Z) : Z := (z + 2 ^ 31) mod 2 ^ 32 - 2 ^ 31.

(** [~~(n * Math.random())]: the product is rounded to a double, then
    truncated towards zero. *)
Definition random_point (n : Z) (r : JSDouble01) : Z :=
  ToInt32 (Z.sgn n * (round53 (Z.abs n * mantissa r) / 2 ^ exponent r)).

(* ================================================================= *)
(** * The data of the codec *)

(** Modelled from the spec: the types [CryptoOptions], [TokenOptions] and
    [Token] are declared in [@/types/common], outside [src/]; their fields
    are those [util.ts] reads and writes.  [access_level] and [title_id] are
    optional.  [Token] has the fields of [TokenOptions]. *)
Record CryptoOptions : Type := {
  public_key : Buffer;
  hmac_secret : Buffer
}.

Record TokenOptions : Type := {
  system_type : Z;
  token_type : Z;
  pid : Z;
  access_level : option Z;
  title_id : option Z;
  expire_time : Z
}.

Definition Token : Type := TokenOptions.

(** What [getServiceAESKey], [getServicePrivateKey] and
    [getServiceSecretKey] return for the service [account]. *)
Record ServiceKeys : Type := {
  aes_key : Buffer;
  private_key : Buffer;
  secret_key : Buffer
}.

(** The random draws of one call of [generateToken]:
    [crypto.randomBytes(16)], the OAEP seed, and two [Math.random()]. *)
Record Entropy : Type := {
  randomBytes16 : Buffer;
  oaep_seed : Buffer;
  random1 : JSDouble01;
  random2 : JSDouble01
}.

(** [!v] for an optional number or bigint: [undefined] and zero are
    falsy. *)
Definition falsy (v : option Z) : bool :=
  match v with
  | None => true
  | Some z => z =? 0
  end.

Section Codec.
Context {crypto : Crypto}.

(* ================================================================= *)
(** * AES-128-CBC with PKCS#7 padding *)

Definition pkcs7_pad (data : Buffer) : Buffer :=
  let n := (16 - length data mod 16)%nat in
  data ++ repeat (z2b (Z.of_nat n)) n.

Definition pkcs7_unpad (data : Buffer) : option Buffer :=
  let p := last data x00 in
  let n := Z.to_nat (b2z p) in
  if (1 <=? n)%nat && (n <=? 16)%nat
     && forallb (Byte.eqb p) (skipn (length data - n) data)
  then Some (firstn (length data - n) data)
  else None.

Fixpoint cbc_encrypt_blocks (key prev : Buffer) (n : nat) (data : Buffer)
  : Buffer :=
  match n with
  | O => []
  | S n' =>
    let c := aes128_encrypt_block key (xor_bytes (firstn 16 data) prev) in
    c ++ cbc_encrypt_blocks key c n' (skipn 16 data)
  end.

Fixpoint cbc_decrypt_blocks (key prev : Buffer) (n : nat) (data : Buffer)
  : Buffer :=
  match n with
  | O => []
  | S n' =>
    let c := firstn 16 data in
    xor_bytes (aes128_decrypt_block key c) prev
      ++ cbc_decrypt_blocks key c n' (skipn 16 data)
  end.

Record Cipher : Type := {
  cipher_key : Buffer;
  cipher_iv : Buffer
}.

(** [crypto.createCipheriv('aes-128-cbc', key, iv)] and
    [crypto.createDecipheriv('aes-128-cbc', key, iv)]. *)
Definition createCipheriv (key iv : Buffer) : result Cipher :=
  if negb (length iv =? 16)%nat then Throw ERR_CRYPTO_INVALID_IV
  else if negb (length key =? 16)%nat then Throw ERR_CRYPTO_INVALID_KEYLEN
  else Ok {| cipher_key := key; cipher_iv := iv |}.

Definition createDecipheriv := createCipheriv.

(** [Buffer.concat([cipher.update(data), cipher.final()])] *)
Definition cipher_update_final (c : Cipher) (data : Buffer) : Buffer :=
  let padded := pkcs7_pad data in
  cbc_encrypt_blocks (cipher_key c) (cipher_iv c)
    (length padded / 16) padded.

(** [Buffer.concat([decipher.update(data), decipher.final()])] *)
Definition decipher_update_final (c : Cipher) (data : Buffer)
  : result Buffer :=
  if (length data =? 0)%nat || negb (length data mod 16 =? 0)%nat
  then Throw ERR_OSSL_WRONG_FINAL_BLOCK_LENGTH
  else
    match pkcs7_unpad
            (cbc_decrypt_blocks (cipher_key c) (cipher_iv c)
               (length data / 16) data) with
    | Some plain => Ok plain
    | None => Throw ERR_OSSL_BAD_DECRYPT
    end.

(* ================================================================= *)
(** * util.ts, lines 30-41 *)

Definition nintendoPasswordHash (password : JSString) (pid : Z)
  : result JSString :=
  let pidBuffer := Buffer_alloc 4 in
  pidBuffer <- writeUInt32LE pidBuffer pid 0 ;;
  let unpacked :=
    pidBuffer ++ utf8_encode [0x02; 0x65; 0x43; 0x46]
      ++ utf8_encode password in
  Ok (toString_hex (sha256 unpacked)).

(* ================================================================= *)
(** * util.ts, lines 53-142 *)

(** The IV built from two 8-byte windows of the RSA ciphertext (lines
    115-118 and 181-184). *)
Definition derive_iv (encryptedKey : Buffer) (point1 point2 : Z) : Buffer :=
  subarray encryptedKey point1 (point1 + 8)
    ++ subarray encryptedKey point2 (point2 + 8).

Definition generateToken (keys : ServiceKeys) (rnd : Entropy)
    (cryptoOptions : option CryptoOptions) (tokenOptions : TokenOptions)
  : result (option JSString) :=
  match cryptoOptions with
  | None =>
    let aesKey := aes_key keys in
    let dataBuffer := Buffer_alloc (1 + 1 + 4 + 8) in
    dataBuffer <- writeUInt8 dataBuffer (system_type tokenOptions) 0x0 ;;
    dataBuffer <- writeUInt8 dataBuffer (token_type tokenOptions) 0x1 ;;
    dataBuffer <- writeUInt32LE dataBuffer (pid tokenOptions) 0x2 ;;
    dataBuffer <- writeBigUInt64LE dataBuffer (expire_time tokenOptions) 0x6 ;;
    let iv := Buffer_alloc 16 in
    cipher <- createCipheriv aesKey iv ;;
    let encryptedBody := cipher_update_final cipher dataBuffer in
    Ok (Some (toString_base64 encryptedBody))
  | Some cryptoOptions =>
    if falsy (access_level tokenOptions) || falsy (title_id tokenOptions)
    then Ok None
    else
      match access_level tokenOptions, title_id tokenOptions with
      | Some access_level, Some title_id =>
        let dataBuffer := Buffer_alloc (1 + 1 + 4 + 1 + 8 + 8) in
        dataBuffer <- writeUInt8 dataBuffer (system_type tokenOptions) 0x0 ;;
        dataBuffer <- writeUInt8 dataBuffer (token_type tokenOptions) 0x1 ;;
        dataBuffer <- writeUInt32LE dataBuffer (pid tokenOptions) 0x2 ;;
        dataBuffer <- writeUInt8 dataBuffer access_level 0x6 ;;
        dataBuffer <- writeBigUInt64LE dataBuffer title_id 0x7 ;;
        dataBuffer <-
          writeBigUInt64LE dataBuffer (expire_time tokenOptions) 0xF ;;
        let signature := hmac_sha1 (hmac_secret cryptoOptions) dataBuffer in
        let key := randomBytes16 rnd in
        let encryptedKey :=
          rsa_oaep_encrypt (public_key cryptoOptions) (oaep_seed rnd) key in
        let point1 :=
          random_point (Z.of_nat (length encryptedKey) - 8) (random1 rnd) in
        let point2 :=
          random_point (Z.of_nat (length encryptedKey) - 8) (random2 rnd) in
        let iv := derive_iv encryptedKey point1 point2 in
        cipher <- createCipheriv key iv ;;
        let encryptedBody := cipher_update_final cipher dataBuffer in
        let cryptoConfig := encryptedKey ++ [z2b point1; z2b point2] in
        let token := cryptoConfig ++ signature ++ encryptedBody in
        Ok (Some (toString_base64 token))
      | _, _ => Ok None
      end
  end.

(* ================================================================= *)
(** * util.ts, lines 144-205 *)

Definition decryptToken (keys : ServiceKeys) (token : Buffer)
  : result Buffer :=
  if (length token <=? 32)%nat then
    let aesKey := aes_key keys in
    let iv := Buffer_alloc 16 in
    decipher <- createDecipheriv aesKey iv ;;
    decryptedBody <- decipher_update_final decipher token ;;
    Ok decryptedBody
  else
    let privateKeyBytes := private_key keys in
    let secretKey := secret_key keys in
    let cryptoConfig := subarray token 0 0x82 in
    let signature := subarray token 0x82 0x96 in
    let encryptedBody := subarray_from token 0x96 in
    let encryptedAESKey := subarray cryptoConfig 0 128 in
    point1 <- readInt8 cryptoConfig 0x80 ;;
    point2 <- readInt8 cryptoConfig 0x81 ;;
    let iv := derive_iv encryptedAESKey point1 point2 in
    decryptedAESKey <-
      match rsa_oaep_decrypt privateKeyBytes encryptedAESKey with
      | Some k => Ok k
      | None => Throw ERR_RSA_DECRYPT
      end ;;
    decipher <- createDecipheriv decryptedAESKey iv ;;
    decryptedBody <- decipher_update_final decipher encryptedBody ;;
    let calculatedSignature := hmac_sha1 secretKey decryptedBody in
    if negb (Buffer_equals signature calculatedSignature)
    then Ok (Buffer_alloc 0)
    else Ok decryptedBody.

(* ================================================================= *)
(** * util.ts, lines 207-225 *)

Definition unpackToken (token : Buffer) : result Token :=
  if (length token <=? 14)%nat then
    system_type <- readUInt8 token 0x0 ;;
    token_type <- readUInt8 token 0x1 ;;
    pid <- readUInt32LE token 0x2 ;;
    expire_time <- readBigUInt64LE token 0x6 ;;
    Ok {| system_type := system_type; token_type := token_type; pid := pid;
          access_level := None; title_id := None;
          expire_time := expire_time |}
  else
    system_type <- readUInt8 token 0x0 ;;
    token_type <- readUInt8 token 0x1 ;;
    pid <- readUInt32LE token 0x2 ;;
    access_level <- readUInt8 token 0x6 ;;
    title_id <- readBigUInt64LE token 0x7 ;;
    expire_time <- readBigUInt64LE token 0xF ;;
    Ok {| system_type := system_type; token_type := token_type; pid := pid;
          access_level := Some access_level; title_id := Some title_id;
          expire_time := expire_time |}.

(** The receiving side: [unpackToken(await decryptToken(token))], on the
    bytes and on the base64 wire text. *)
Definition decodeBytes (keys : ServiceKeys) (token : Buffer) : result Token :=
  body <- decryptToken keys token ;;
  unpackToken body.

Definition decodeToken (keys : ServiceKeys) (wire : JSString)
  : result Token :=
  decodeBytes keys (Buffer_from_base64 wire).

(* ================================================================= *)
(** * util.ts, lines 291-309 *)

(** The password-reset token that [sendForgotPasswordEmail] asks for, for
    an account with the given [pid] and [access_level] at time [now]
    ([Date.now()]); [publicKey] is [getServicePublicKey('account')]. *)
Definition passwordResetToken (keys : ServiceKeys) (rnd : Entropy)
    (publicKey : Buffer) (pnid_pid pnid_access_level now : Z)
  : result (option JSString) :=
  let cryptoOptions :=
    {| public_key := publicKey; hmac_secret := secret_key keys |} in
  let tokenOptions :=
    {| system_type := 0xF; token_type := 0x5; pid := pnid_pid;
       access_level := Some pnid_access_level; title_id := Some 0;
       expire_time := now + 24 * 60 * 60 * 1000 |} in
  generateToken keys rnd (Some cryptoOptions) tokenOptions.

End Codec.

(* ================================================================= *)
(** * The NintendoBase64 alphabet as the specification words it *)

(** Encoding substitutes [+] by [.], [/] by [-] and [=] by [*]. *)
Definition nintendo_subst (c : Z) : Z :=
  if c =? chr "+" then chr "."
  else if c =? chr "/" then chr "-"
  else if c =? chr "=" then chr "*"
  else c.

(** Decoding applies the inverse substitutions. *)
Definition nintendo_unsubst (c : Z) : Z :=
  if c =? chr "." then chr "+"
  else if c =? chr "-" then chr "/"
  else if c =? chr "*" then chr "="
  else c.

(* ================================================================= *)
(** * The password hash as the specification words it *)

(** The fixed 4-byte marker constant. *)
Definition PasswordHasher_marker : Buffer := [x02; x65; x43; x46].

(** Lowercase hexadecimal rendering, by table. *)
Definition lowercase_hex_digits : list Z :=
  [chr "0"; chr "1"; chr "2"; chr "3"; chr "4"; chr "5"; chr "6"; chr "7";
   chr "8"; chr "9"; chr "a"; chr "b"; chr "c"; chr "d"; chr "e"; chr "f"].

Definition lowercase_hex (b : Buffer) : JSString :=
  flat_map (fun x =>
              [nth (Z.to_nat (b2z x / 16)) lowercase_hex_digits 0;
               nth (Z.to_nat (b2z x mod 16)) lowercase_hex_digits 0]) b.

(** [pid] as 4-byte little-endian, the marker, the UTF-8 bytes of the
    password; SHA-256; lowercase hex. *)
Definition PasswordHasher_hash {crypto : Crypto} (password : JSString)
    (pid : Z) : JSString :=
  lowercase_hex
    (sha256 (le_bytes 4 pid ++ PasswordHasher_marker ++ utf8_encode password)).

(* ================================================================= *)
(** * Assumptions on the primitives and on the inputs *)

(** What the proofs use of the primitives: the AES-128 block function is a
    permutation of the 16-byte blocks under every 16-byte key, and an
    HMAC-SHA1 tag has 20 bytes. *)
Record CryptoLaws (crypto : Crypto) : Prop := {
  aes_encrypt_length : forall k b,
    length k = 16%nat -> length b = 16%nat ->
    length (aes128_encrypt_block k b) = 16%nat;
  aes_decrypt_length : forall k b,
    length k = 16%nat -> length b = 16%nat ->
    length (aes128_decrypt_block k b) = 16%nat;
  aes_decrypt_encrypt : forall k b,
    length k = 16%nat -> length b = 16%nat ->
    aes128_decrypt_block k (aes128_encrypt_block k b) = b;
  aes_encrypt_decrypt : forall k b,
    length k = 16%nat -> length b = 16%nat ->
    aes128_encrypt_block k (aes128_decrypt_block k b) = b;
  hmac_sha1_length : forall k m, length (hmac_sha1 k m) = 20%nat
}.

(** [pub] and [priv] are the two halves of an RSA key with a 1024-bit
    modulus: a 16-byte message encrypts to 128 bytes, which decrypt to the
    message. *)
Definition rsa1024_key_pair (crypto : Crypto) (pub priv : Buffer) : Prop :=
  forall seed m,
    length m = 16%nat ->
    length (rsa_oaep_encrypt pub seed m) = 128%nat
    /\ rsa_oaep_decrypt priv (rsa_oaep_encrypt pub seed m) = Some m.

(** [crypto.randomBytes(16)] has 16 bytes and [Math.random()] is a double
    in the interval [0, 1). *)
Definition entropy_ok (rnd : Entropy) : Prop :=
  length (randomBytes16 rnd) = 16%nat
  /\ is_double01 (random1 rnd) /\ is_double01 (random2 rnd).

(** The plaintext layouts of section 3 of the specification. *)
Definition short_plaintext (system_type token_type pid expire_time : Z)
  : Buffer :=
  [z2b system_type; z2b token_type] ++ le_bytes 4 pid
    ++ le_bytes 8 expire_time.

Definition long_plaintext
    (system_type token_type pid access_level title_id expire_time : Z)
  : Buffer :=
  [z2b system_type; z2b token_type] ++ le_bytes 4 pid ++ [z2b access_level]
    ++ le_bytes 8 title_id ++ le_bytes 8 expire_time.

(** A short and a long field set. *)
Definition short_fields (system_type token_type pid expire_time : Z)
  : TokenOptions :=
  {| system_type := system_type; token_type := token_type; pid := pid;
     access_level := None; title_id := None; expire_time := expire_time |}.

Definition long_fields
    (system_type token_type pid access_level title_id expire_time : Z)
  : TokenOptions :=
  {| system_type := system_type; token_type := token_type; pid := pid;
     access_level := Some access_level; title_id := Some title_id;
     expire_time := expire_time |}.

(** AES-128-CBC with PKCS#7 padding, in one piece. *)
Definition aes128_cbc_encrypt {crypto : Crypto} (key iv plain : Buffer)
  : Buffer :=
  cbc_encrypt_blocks key iv (length (pkcs7_pad plain) / 16) (pkcs7_pad plain).

(** Flipping bit [j] of the byte at offset [i]. *)
Definition flip_bit (buf : Buffer) (i : nat) (j : Z) : Buffer :=
  firstn i buf
    ++ match skipn i buf with
       | [] => []
       | b :: r => byte_xor b (z2b (2 ^ j)) :: r
       end.

(** The fields every token carries fit their widths. *)
Definition fields_in_range (F : TokenOptions) : Prop :=
  0 <= system_type F < 256 /\ 0 <= token_type F < 256
  /\ 0 <= pid F < 2 ^ 32 /\ 0 <= expire_time F < 2 ^ 64.

(** The characters [toString_base64] produces are none of [.], [-], [*]. *)
Definition plain_base64 (c : Z) : Prop :=
  c <> chr "." /\ c <> chr "-" /\ c <> chr "*".

(* ================================================================= *)
(** * Sample inputs *)

Definition sample_keys : ServiceKeys :=
  {| aes_key := repeat x00 16;
     private_key := [x2d; x2d; x01];
     secret_key := [x73; x65; x63; x72; x65; x74] |}.

Definition sample_crypto_options : CryptoOptions :=
  {| public_key := [x2d; x2d; x02]; hmac_secret := secret_key sample_keys |}.

Definition sample_entropy : Entropy :=
  {| randomBytes16 :=
       [x10; x32; x54; x76; x98; xba; xdc; xfe;
        x01; x23; x45; x67; x89; xab; xcd; xef];
     oaep_seed := [xa5; x5a; xc3; x3c; x0f; xf0; x99; x66];
     random1 := {| mantissa := 2 ^ 53 - 1; exponent := 53 |};
     random2 := {| mantissa := 3141592653589793; exponent := 53 |} |}.

(** The short token of section 8 of the specification. *)
Definition sample_short_fields : TokenOptions :=
  short_fields 0x0F 0x05 100000 1700000000000.

Definition sample_long_fields : TokenOptions :=
  long_fields 0x0F 0x05 100000 3 0x0005000010101000 1700000000000.

(** The long wire token [generateToken] returns on the sample inputs. *)
Definition sample_long_wire : JSString :=
  Eval vm_compute in
    match @generateToken xor_crypto sample_keys sample_entropy
            (Some sample_crypto_options) sample_long_fields with
    | Ok (Some wire) => wire
    | _ => []
    end.

Definition sample_long_token : Buffer :=
  Eval vm_compute in Buffer_from_base64 sample_long_wire.

(* ================================================================= *)
(** * The long wire format of section 3 of the specification *)


(** The short wire token [generateToken] returns on the sample inputs. *)
Definition sample_short_wire : JSString :=
  Eval vm_compute in
    match @generateToken xor_crypto sample_keys sample_entropy None
            sample_short_fields with
    | Ok (Some wire) => wire
    | _ => []
    end.

(** The account keys with another HMAC secret. *)
Definition mismatched_keys : ServiceKeys :=
  {| aes_key := aes_key sample_keys;
     private_key := private_key sample_keys;
     secret_key := [x6f; x74; x68; x65; x72] |}.

(* ================================================================= *)
(** * What tampering with a long token can lead to *)


(** The characters of a NintendoBase64 text: letters, digits and the three
    substitutes [.], [-] and [*]. *)
Definition nintendo_alphabet (c : Z) : bool :=
  ((chr "A" <=? c) && (c <=? chr "Z"))
  || ((chr "a" <=? c) && (c <=? chr "z"))
  || ((chr "0" <=? c) && (c <=? chr "9"))
  || (c =? chr ".") || (c =? chr "-") || (c =? chr "*").

(* ================================================================= *)
(** * Strings, numbers and exceptions of the language *)

(** A string literal, as code units. *)
Definition str (s : string) : JSString := map chr (list_ascii_of_string s).
Arguments str s%_string.

(** [a == b] on two strings. *)
Fixpoint JSString_eqb (a b : JSString) : bool :=
  match a, b with
  | [], [] => true
  | x :: a', y :: b' => (x =? y) && JSString_eqb a' b'
  | _, _ => false
  end.

(** [n.toString()] for an integer [n] of magnitude below 10^21, where the
    language prints all the digits. *)
Fixpoint uint_digits (d : Decimal.uint) : JSString :=
  match d with
  | Decimal.Nil => []
  | Decimal.D0 d => chr "0" :: uint_digits d
  | Decimal.D1 d => chr "1" :: uint_digits d
  | Decimal.D2 d => chr "2" :: uint_digits d
  | Decimal.D3 d => chr "3" :: uint_digits d
  | Decimal.D4 d => chr "4" :: uint_digits d
  | Decimal.D5 d => chr "5" :: uint_digits d
  | Decimal.D6 d => chr "6" :: uint_digits d
  | Decimal.D7 d => chr "7" :: uint_digits d
  | Decimal.D8 d => chr "8" :: uint_digits d
  | Decimal.D9 d => chr "9" :: uint_digits d
  end.

Definition Number_toString (n : Z) : JSString :=
  match Z.to_int n with
  | Decimal.Pos d => uint_digits d
  | Decimal.Neg d => chr "-" :: uint_digits d
  end.

(** Reading a string of decimal digits back ([Number(s)] on such a string);
    [None] for any other string. *)
Fixpoint digits_uint (s : JSString) : option Decimal.uint :=
  match s with
  | [] => Some Decimal.Nil
  | c :: r =>
    match digits_uint r with
    | None => None
    | Some d =>
      if c =? chr "0" then Some (Decimal.D0 d)
      else if c =? chr "1" then Some (Decimal.D1 d)
      else if c =? chr "2" then Some (Decimal.D2 d)
      else if c =? chr "3" then Some (Decimal.D3 d)
      else if c =? chr "4" then Some (Decimal.D4 d)
      else if c =? chr "5" then Some (Decimal.D5 d)
      else if c =? chr "6" then Some (Decimal.D6 d)
      else if c =? chr "7" then Some (Decimal.D7 d)
      else if c =? chr "8" then Some (Decimal.D8 d)
      else if c =? chr "9" then Some (Decimal.D9 d)
      else None
    end
  end.

Definition parse_decimal (s : JSString) : option Z :=
  match s with
  | [] => None
  | _ => option_map Z.of_uint (digits_uint s)
  end.

(** What a call can throw beside the Node errors above: the native
    [TypeError] and [URIError]. *)
Inductive Exception : Type :=
| NodeError (e : Error)
| TypeError
| URIError.

Inductive completion (A : Type) : Type :=
| Normal (a : A)
| Abrupt (e : Exception).
Arguments Normal {A} a.
Arguments Abrupt {A} e.

(* ================================================================= *)
(** * util.ts, lines 256-262 *)

(** A [URLSearchParams] is the list of its name-value pairs; [get] returns
    the value of the first pair with the name. *)
Definition URLSearchParams : Type := list (JSString * JSString).

Definition URLSearchParams_get (name : JSString) (p : URLSearchParams)
  : option JSString :=
  option_map snd (find (fun nv => JSString_eqb (fst nv) name) p).

(** [now] is [Date.now()]. *)
Definition nascError (now : Z) (errorCode : JSString) : URLSearchParams :=
  [ (str "retry", nintendoBase64Encode (inl (str "1")));
    (str "returncd",
     if JSString_eqb errorCode (str "null") then errorCode
     else nintendoBase64Encode (inl errorCode));
    (str "datetime", nintendoBase64Encode (inl (Number_toString now))) ].

(* ================================================================= *)
(** * Objects of the query string and of the headers *)

(** The values a parsed query string or a header table holds, and what a
    lookup in them can return: [undefined], a string, an array, an object
    (its own enumerable properties, in the order [Object.entries] lists
    them), or a member of [Object.prototype] reached by inheritance. *)
Inductive JSValue : Type :=
| JSUndefined
| JSStr (s : JSString)
| JSArray (elements : list JSValue)
| JSObject (properties : list (JSString * JSValue))
| JSBuiltin (name : JSString).

(** The property names of [Object.prototype]. *)
Definition Object_prototype_names : list JSString :=
  [ str "constructor"; str "__defineGetter__"; str "__defineSetter__";
    str "hasOwnProperty"; str "__lookupGetter__"; str "__lookupSetter__";
    str "isPrototypeOf"; str "propertyIsEnumerable"; str "toString";
    str "valueOf"; str "__proto__"; str "toLocaleString" ].

Definition inherited (key : JSString) : bool :=
  existsb (JSString_eqb key) Object_prototype_names.

Definition own_property (o : list (JSString * JSValue)) (key : JSString)
  : option JSValue :=
  option_map snd (find (fun kv => JSString_eqb (fst kv) key) o).

(** [o[key]] on an ordinary object: the own property, else the member of
    [Object.prototype] of that name, else [undefined]. *)
Definition get_property (o : list (JSString * JSValue)) (key : JSString)
  : JSValue :=
  match own_property o key with
  | Some v => v
  | None => if inherited key then JSBuiltin key else JSUndefined
  end.

(** [o[key] = s] for a string [s] on an ordinary object: an own property is
    overwritten in place; [__proto__] is the setter of [Object.prototype],
    which ignores a string; any other name becomes a new own property. *)
Fixpoint overwrite (o : list (JSString * JSValue)) (key : JSString)
    (v : JSValue) : list (JSString * JSValue) :=
  match o with
  | [] => []
  | (k, w) :: r =>
    if JSString_eqb k key then (k, v) :: r else (k, w) :: overwrite r key v
  end.

Definition set_string_property (o : list (JSString * JSValue))
    (key s : JSString) : list (JSString * JSValue) :=
  match own_property o key with
  | Some _ => overwrite o key (JSStr s)
  | None =>
    if JSString_eqb key (str "__proto__") then o else o ++ [(key, JSStr s)]
  end.

(** The truth value of [if (v)]. *)
Definition truthy (v : JSValue) : bool :=
  match v with
  | JSUndefined => false
  | JSStr [] => false
  | _ => true
  end.

(** [Object.entries(v)]: a TypeError on [undefined]; the indexed elements of
    an array or code units of a string; nothing for the members of
    [Object.prototype], which have no enumerable property. *)
Definition indexed {A : Type} (l : list A) : list (JSString * A) :=
  combine (map (fun i => Number_toString (Z.of_nat i)) (seq 0 (length l))) l.

Definition Object_entries (v : JSValue)
  : completion (list (JSString * JSValue)) :=
  match v with
  | JSUndefined => Abrupt TypeError
  | JSStr s => Normal (indexed (map (fun c => JSStr [c]) s))
  | JSArray l => Normal (indexed l)
  | JSObject o => Normal o
  | JSBuiltin _ => Normal []
  end.

(* ================================================================= *)
(** * util.ts, lines 328-377 *)

Definition makeSafeQs (query : JSValue)
  : completion (list (JSString * JSValue)) :=
  match Object_entries query with
  | Abrupt e => Abrupt e
  | Normal entries =>
    Normal
      (fold_left
         (fun output kv =>
            match snd kv with
            | JSStr value => set_string_property output (fst kv) value
            | _ => output
            end)
         entries [])
  end.

Definition getValueFromQueryString (qs : list (JSString * JSValue))
    (key : JSString) : completion JSValue :=
  let property := get_property qs key in
  if truthy property then
    let property :=
      match property with
      | JSArray l => nth 0 l JSUndefined
      | _ => property
      end in
    match property with
    | JSStr s => Normal (JSStr s)
    | _ =>
      match makeSafeQs property with
      | Abrupt e => Abrupt e
      | Normal property => Normal (get_property property key)
      end
    end
  else Normal JSUndefined.

Definition getValueFromHeaders (headers : list (JSString * JSValue))
    (key : JSString) : JSValue :=
  let header := get_property headers key in
  if truthy header then
    match header with
    | JSArray l => nth 0 l JSUndefined
    | _ => header
    end
  else JSUndefined.

(** A header table as [IncomingHttpHeaders] declares it: every value is a
    string, an array of strings or [undefined]. *)
Definition string_or_strings (v : JSValue) : bool :=
  match v with
  | JSUndefined | JSStr _ => true
  | JSArray l => forallb (fun e => match e with JSStr _ => true | _ => false end) l
  | _ => false
  end.

Definition IncomingHttpHeaders (headers : list (JSString * JSValue)) : Prop :=
  Forall (fun kv => string_or_strings (snd kv) = true) headers.

(* ================================================================= *)
(** * util.ts, lines 379-381 *)

(** A property key is a string or a symbol. *)
Inductive PropertyKey : Type :=
| StringKey (s : JSString)
| SymbolKey (id : nat).

Definition PropertyKey_eqb (a b : PropertyKey) : bool :=
  match a, b with
  | StringKey s, StringKey t => JSString_eqb s t
  | SymbolKey i, SymbolKey j => Nat.eqb i j
  | _, _ => false
  end.

Section MapToObject.

(** The keys and the values that are no [Map], and the conversion of a key
    to a property key that [Object.fromEntries] applies. *)
Variables K V : Type.
Variable ToPropertyKey : K -> PropertyKey.

(** A [Map] is the list of its entries in insertion order; a value is
    either no [Map] or a [Map] in turn. *)
Inductive JSMap : Type :=
| MapOf (entries : list (K * (V + JSMap))).

Inductive PlainObject : Type :=
| ObjectOf (properties : list (PropertyKey * (V + PlainObject))).

Definition properties_of (o : PlainObject) :=
  match o with ObjectOf p => p end.

(** [Object.fromEntries]: each entry defines the property of its key, a
    later entry replacing the value an earlier one gave to the same key. *)
Fixpoint define_property {A : Type} (o : list (PropertyKey * A))
    (key : PropertyKey) (v : A) : list (PropertyKey * A) :=
  match o with
  | [] => [(key, v)]
  | (k, w) :: r =>
    if PropertyKey_eqb k key then (k, v) :: r
    else (k, w) :: define_property r key v
  end.

Definition Object_fromEntries {A : Type} (entries : list (PropertyKey * A))
  : list (PropertyKey * A) :=
  fold_left (fun o kv => define_property o (fst kv) (snd kv)) entries [].

Fixpoint mapToObject (map : JSMap) : PlainObject :=
  match map with
  | MapOf entries =>
    ObjectOf
      (Object_fromEntries
         (List.map
            (fun kv =>
               match snd kv with
               | inr v => (ToPropertyKey (fst kv), inr (mapToObject v))
               | inl v => (ToPropertyKey (fst kv), inl v)
               end)
            entries))
  end.

Definition own_lookup {A : Type} (o : list (PropertyKey * A))
    (key : PropertyKey) : option A :=
  option_map snd (find (fun kv => PropertyKey_eqb (fst kv) key) o).

End MapToObject.

Arguments MapOf {K V} entries.
Arguments ObjectOf {V} properties.
Arguments properties_of {V} o.
Arguments mapToObject {K V} ToPropertyKey map.

(* ================================================================= *)
(** * util.ts, lines 291-326 *)

(** [encodeURIComponent]: letters, digits and [-_.!~*'()] stay; any other
    character becomes the [%XX] of each of its UTF-8 bytes; a lone surrogate
    is a URIError. *)
Definition uri_unreserved (c : Z) : bool :=
  ((chr "A" <=? c) && (c <=? chr "Z"))
  || ((chr "a" <=? c) && (c <=? chr "z"))
  || ((chr "0" <=? c) && (c <=? chr "9"))
  || existsb (Z.eqb c)
       [chr "-"; chr "_"; chr "."; chr "!"; chr "~"; chr "*"; chr "'";
        chr "("; chr ")"].

Definition upper_hex_digit (n : Z) : Z :=
  if n <? 10 then chr "0" + n else chr "A" + (n - 10).

Definition percent_encode (octets : Buffer) : JSString :=
  flat_map (fun x => [chr "%"; upper_hex_digit (b2z x / 16);
                      upper_hex_digit (b2z x mod 16)]) octets.

Fixpoint encodeURIComponent (s : JSString) : completion JSString :=
  match s with
  | [] => Normal []
  | c :: r =>
    if uri_unreserved c then
      match encodeURIComponent r with
      | Normal e => Normal (c :: e)
      | Abrupt x => Abrupt x
      end
    else if (0xD800 <=? c) && (c <? 0xDC00) then
      match r with
      | d :: r' =>
        if (0xDC00 <=? d) && (d <? 0xE000) then
          match encodeURIComponent r' with
          | Normal e => Normal (percent_encode (utf8_encode [c; d]) ++ e)
          | Abrupt x => Abrupt x
          end
        else Abrupt URIError
      | [] => Abrupt URIError
      end
    else if (0xDC00 <=? c) && (c <? 0xE000) then Abrupt URIError
    else
      match encodeURIComponent r with
      | Normal e => Normal (percent_encode (utf8_encode [c]) ++ e)
      | Abrupt x => Abrupt x
      end
  end.

(** The fields of the account document that the mail reads, and the mail
    options that lines 313-323 build. *)
Record PNID : Type := {
  pnid_email_address : JSString;
  pnid_username : JSString;
  pnid_pid : Z;
  pnid_access_level : Z
}.

Record MailerLink : Type := {
  link_text : JSString;
  link_href : JSString
}.

Record MailerOptions : Type := {
  mail_to : JSString;
  mail_subject : JSString;
  mail_username : JSString;
  mail_paragraph : JSString;
  mail_link : MailerLink;
  mail_text : JSString
}.

(** [passwordResetToken || ''] *)
Definition or_empty (token : option JSString) : JSString :=
  match token with
  | Some (c :: t) => c :: t
  | _ => []
  end.

Section Mail.
Context {crypto : Crypto}.

(** [website_base] is [config.website_base] and [now] is [Date.now()]; the
    result is the argument of [sendMail]. *)
Definition sendForgotPasswordEmail (keys : ServiceKeys) (rnd : Entropy)
    (publicKey : Buffer) (website_base : JSString) (now : Z) (pnid : PNID)
  : completion MailerOptions :=
  match passwordResetToken keys rnd publicKey (pnid_pid pnid)
          (pnid_access_level pnid) now with
  | Throw e => Abrupt (NodeError e)
  | Ok passwordResetToken =>
    match encodeURIComponent (or_empty passwordResetToken) with
    | Abrupt x => Abrupt x
    | Normal component =>
      Normal
        {| mail_to := pnid_email_address pnid;
           mail_subject := str "[Pretendo Network] Forgot Password";
           mail_username := pnid_username pnid;
           mail_paragraph :=
             str "a password reset has been requested from this account. If you did not request the password reset, please ignore this email. If you did request this password reset, please click the link below to reset your password.";
           mail_link :=
             {| link_text := str "Reset password";
                link_href :=
                  website_base ++ str "/account/reset-password?token="
                    ++ component |};
           mail_text :=
             str "Dear " ++ pnid_username pnid
               ++ str ", a password reset has been requested from this account. "
               ++ [13; 10; 13; 10]
               ++ str "If you did not request the password reset, please ignore this email. "
               ++ [13; 10]
               ++ str "If you did request this password reset, please click the link to reset your password: "
               ++ website_base ++ str "/account/reset-password?token="
               ++ component |}
    end
  end.

End Mail.

(** Every own property holds a string. *)
Definition all_strings (o : list (JSString * JSValue)) : Prop :=
  Forall (fun kv => exists s, snd kv = JSStr s) o.

(** The entries that the loop of [makeSafeQs] copies. *)
Definition copied_by_makeSafeQs (kv : JSString * JSValue) : bool :=
  match snd kv with
  | JSStr _ => negb (JSString_eqb (fst kv) (str "__proto__"))
  | _ => false
  end.

(** A sample key type: numbers and strings, a number converting to its
    decimal text. *)
Definition sample_ToPropertyKey (k : Z + JSString) : PropertyKey :=
  match k with
  | inl n => StringKey (Number_toString n)
  | inr s => StringKey s
  end.

(** A sample map: the number 1 and the string 1 are two keys of it. *)
Definition sample_inner_map : JSMap (Z + JSString) JSString :=
  MapOf [(inl 2, inl (str "y"))].

Definition sample_entries_before
  : list ((Z + JSString) * (JSString + JSMap (Z + JSString) JSString)) :=
  [(inl 1, inl (str "x"))].

(** What [encodeURIComponent] makes of a character of a standard base64
    text. *)
Definition escape_base64 (c : Z) : JSString :=
  if c =? chr "+" then str "%2B"
  else if c =? chr "/" then str "%2F"
  else if c =? chr "=" then str "%3D"
  else [c].

(** All six fields of a long token fit their widths. *)
Definition long_fields_in_range (F : TokenOptions) : Prop :=
  fields_in_range F
  /\ match access_level F, title_id F with
     | Some al, Some tid => 0 <= al < 256 /\ 0 <= tid < 2 ^ 64
     | _, _ => False
     end.

(* ================================================================= *)
(** * Properties *)

(** Case analysis on the innermost test of a conditional. *)
Ltac destruct_if :=
  match goal with
  | |- context [if ?b then _ else _] =>
    lazymatch b with
    | context [if _ then _ else _] => fail
    | _ => destruct b eqn:?
    end
  end.

(** ** Bytes *)

Lemma b2z_range (b : byte) : 0 <= b2z b < 256.
Proof.
  unfold b2z. pose proof (Byte.to_N_bounded b). lia.
Qed.

Lemma z2b_b2z (b : byte) : z2b (b2z b) = b.
Proof.
  unfold z2b. rewrite Z.mod_small by apply b2z_range.
  unfold b2z. rewrite N2Z.id, Byte.of_to_N. reflexivity.
Qed.

Lemma b2z_z2b_mod (z : Z) : b2z (z2b z) = z mod 256.
Proof.
  unfold z2b, b2z.
  assert (Hr : 0 <= z mod 256 < 256) by (apply Z.mod_pos_bound; lia).
  destruct (Byte.of_N (Z.to_N (z mod 256))) as [b|] eqn:E.
  - apply Byte.to_of_N in E. rewrite E. lia.
  - apply Byte.of_N_None_iff in E. lia.
Qed.

Lemma b2z_z2b (z : Z) : 0 <= z < 256 -> b2z (z2b z) = z.
Proof.
  intros H. rewrite b2z_z2b_mod. apply Z.mod_small, H.
Qed.

Lemma b2z_inj (a b : byte) : b2z a = b2z b -> a = b.
Proof.
  intros H. rewrite <- (z2b_b2z a), <- (z2b_b2z b), H. reflexivity.
Qed.

Lemma lxor_byte_range (x y : Z) :
  0 <= x < 256 -> 0 <= y < 256 -> 0 <= Z.lxor x y < 256.
Proof.
  intros Hx Hy. split.
  - apply Z.lxor_nonneg. lia.
  - destruct (Z.eq_dec (Z.lxor x y) 0) as [->|Hnz]; [lia|].
    assert (Hpos : 0 < Z.lxor x y)
      by (assert (0 <= Z.lxor x y) by (apply Z.lxor_nonneg; lia); lia).
    apply (Z.log2_lt_pow2 _ 8 Hpos).
    eapply Z.le_lt_trans; [apply Z.log2_lxor; lia|].
    apply Z.max_lub_lt.
    + destruct (Z.eq_dec x 0) as [->|]; [reflexivity|].
      apply Z.log2_lt_pow2; lia.
    + destruct (Z.eq_dec y 0) as [->|]; [reflexivity|].
      apply Z.log2_lt_pow2; lia.
Qed.

Lemma b2z_byte_xor (a b : byte) : b2z (byte_xor a b) = Z.lxor (b2z a) (b2z b).
Proof.
  unfold byte_xor. apply b2z_z2b, lxor_byte_range; apply b2z_range.
Qed.

Lemma byte_xor_cancel (a b : byte) : byte_xor (byte_xor a b) b = a.
Proof.
  apply b2z_inj. rewrite !b2z_byte_xor.
  rewrite Z.lxor_assoc, Z.lxor_nilpotent, Z.lxor_0_r. reflexivity.
Qed.

Lemma byte_xor_fixed (a m : byte) : byte_xor a m = a -> m = x00.
Proof.
  intros H. apply b2z_inj.
  assert (E : Z.lxor (b2z a) (b2z m) = b2z a)
    by (rewrite <- b2z_byte_xor, H; reflexivity).
  assert (E' : Z.lxor (b2z a) (Z.lxor (b2z a) (b2z m)) = Z.lxor (b2z a) (b2z a))
    by (rewrite E; reflexivity).
  rewrite <- Z.lxor_assoc, Z.lxor_nilpotent, Z.lxor_0_l in E'. exact E'.
Qed.

Lemma length_xor_bytes (a b : Buffer) :
  length (xor_bytes a b) = Nat.min (length a) (length b).
Proof.
  unfold xor_bytes. rewrite length_map, length_combine. reflexivity.
Qed.

Lemma xor_bytes_cancel (a b : Buffer) :
  length a = length b -> xor_bytes (xor_bytes a b) b = a.
Proof.
  revert b. induction a as [|x a IH]; intros [|y b] H; simpl in *;
    try discriminate; [reflexivity|].
  unfold xor_bytes in *. simpl. rewrite byte_xor_cancel. f_equal.
  apply IH. lia.
Qed.

Lemma Buffer_equals_eq (a b : Buffer) : Buffer_equals a b = true <-> a = b.
Proof.
  revert b. induction a as [|x a IH]; intros [|y b]; simpl;
    try (split; [discriminate|discriminate]); [tauto|].
  rewrite andb_true_iff, IH. split.
  - intros [H1 H2]. apply Byte.byte_dec_bl in H1. congruence.
  - intros H. injection H as -> ->.
    split; [apply Byte.byte_dec_lb|]; reflexivity.
Qed.

Lemma Buffer_equals_refl (a : Buffer) : Buffer_equals a a = true.
Proof. apply Buffer_equals_eq. reflexivity. Qed.

Lemma Buffer_equals_neq (a b : Buffer) : a <> b -> Buffer_equals a b = false.
Proof.
  intros H. destruct (Buffer_equals a b) eqn:E; [|reflexivity].
  apply Buffer_equals_eq in E. contradiction.
Qed.

(** ** Little-endian integers *)

Lemma length_le_bytes (n : nat) (v : Z) : length (le_bytes n v) = n.
Proof.
  revert v. induction n as [|n IH]; intros v; simpl; [|rewrite IH]; reflexivity.
Qed.

Lemma le_value_le_bytes (n : nat) (v : Z) :
  0 <= v < 256 ^ Z.of_nat n -> le_value (le_bytes n v) = v.
Proof.
  revert v. induction n as [|n IH]; intros v Hv.
  - simpl in *. lia.
  - cbn [le_bytes le_value]. rewrite b2z_z2b_mod.
    rewrite Nat2Z.inj_succ, Z.pow_succ_r in Hv by lia.
    rewrite IH.
    + pose proof (Z.div_mod v 256). lia.
    + split; [apply Z.div_pos; lia|].
      apply Z.div_lt_upper_bound; lia.
Qed.

(** ** Base64 *)

Lemma unbase64_base64_char (n : Z) :
  0 <= n < 64 -> unbase64 (base64_char n) = Some n.
Proof.
  intros H. unfold base64_char.
  change (chr "A") with 65. change (chr "a") with 97.
  change (chr "0") with 48. change (chr "+") with 43.
  change (chr "/") with 47.
  destruct (n <? 26) eqn:E1;
    [|destruct (n <? 52) eqn:E2;
      [|destruct (n <? 62) eqn:E3; [|destruct (n =? 62) eqn:E4]]];
    unfold unbase64;
    change (chr "A") with 65; change (chr "Z") with 90;
    change (chr "a") with 97; change (chr "z") with 122;
    change (chr "0") with 48; change (chr "9") with 57;
    change (chr "+") with 43; change (chr "-") with 45;
    change (chr "/") with 47; change (chr "_") with 95;
    repeat match goal with
    | |- context [if ?b then _ else _] => destruct b eqn:?; try lia
    end;
    try (f_equal; lia).
Qed.

Lemma unbase64_pad : unbase64 (chr "=") = None.
Proof. reflexivity. Qed.

Lemma sextets_of_bytes (x y z : byte) :
  let a := b2z x / 4 in
  let b := (b2z x mod 4) * 16 + b2z y / 16 in
  let c := (b2z y mod 16) * 4 + b2z z / 64 in
  let d := b2z z mod 64 in
  (0 <= a < 64 /\ 0 <= b < 64 /\ 0 <= c < 64 /\ 0 <= d < 64)
  /\ a * 4 + b / 16 = b2z x
  /\ (b mod 16) * 16 + c / 4 = b2z y
  /\ (c mod 4) * 64 + d = b2z z.
Proof.
  pose proof (b2z_range x). pose proof (b2z_range y).
  pose proof (b2z_range z).
  cbv zeta. repeat split; Z.div_mod_to_equations; lia.
Qed.

Lemma list_ind3 {A : Type} (P : list A -> Prop) :
  P [] -> (forall x, P [x]) -> (forall x y, P [x; y]) ->
  (forall x y z r, P r -> P (x :: y :: z :: r)) ->
  forall l, P l.
Proof.
  intros H0 H1 H2 H3 l.
  assert (H : P l /\ (forall x, P (x :: l)) /\ (forall x y, P (x :: y :: l))).
  { induction l as [|a l [IH0 [IH1 IH2]]]; auto. }
  apply H.
Qed.

Lemma Buffer_from_base64_toString (b : Buffer) :
  Buffer_from_base64 (toString_base64 b) = b.
Proof.
  unfold Buffer_from_base64.
  induction b as [|x|x y|x y z r IH] using list_ind3.
  - reflexivity.
  - destruct (sextets_of_bytes x x00 x00) as [[Ha [Hb _]] [E1 _]].
    change (b2z x00) with 0 in *. rewrite Z.add_0_r in Hb, E1.
    cbn [toString_base64 base64_sextets].
    rewrite !unbase64_base64_char, unbase64_pad by assumption.
    cbn [base64_bytes Z.eqb]. rewrite Z.eqb_refl. cbn [base64_bytes].
    rewrite E1, z2b_b2z. reflexivity.
  - destruct (sextets_of_bytes x y x00) as [[Ha [Hb [Hc _]]] [E1 [E2 _]]].
    change (b2z x00) with 0 in *. rewrite Z.add_0_r in Hc, E2.
    cbn [toString_base64 base64_sextets].
    rewrite !unbase64_base64_char, unbase64_pad by assumption.
    rewrite Z.eqb_refl. cbn [base64_bytes].
    rewrite E1, E2, !z2b_b2z. reflexivity.
  - destruct (sextets_of_bytes x y z) as [[Ha [Hb [Hc Hd]]] [E1 [E2 E3]]].
    cbn [toString_base64 base64_sextets].
    rewrite !unbase64_base64_char by assumption.
    cbn [base64_bytes]. rewrite E1, E2, E3, !z2b_b2z, IH. reflexivity.
Qed.

Lemma plain_base64_char (n : Z) : 0 <= n < 64 -> plain_base64 (base64_char n).
Proof.
  intros H. unfold plain_base64, base64_char.
  change (chr "A") with 65. change (chr "a") with 97.
  change (chr "0") with 48. change (chr "+") with 43.
  change (chr "/") with 47. change (chr ".") with 46.
  change (chr "-") with 45. change (chr "*") with 42.
  repeat destruct_if; lia.
Qed.

Lemma plain_pad : plain_base64 (chr "=").
Proof. unfold plain_base64. repeat split; discriminate. Qed.

Lemma toString_base64_plain (b : Buffer) :
  Forall plain_base64 (toString_base64 b).
Proof.
  induction b as [|x|x y|x y z r IH] using list_ind3; cbn [toString_base64].
  - constructor.
  - destruct (sextets_of_bytes x x00 x00) as [[Ha [Hb _]] _].
    change (b2z x00) with 0 in *. rewrite Z.add_0_r in Hb.
    repeat (apply Forall_cons;
            [first [apply plain_pad | apply plain_base64_char; assumption]|]).
    apply Forall_nil.
  - destruct (sextets_of_bytes x y x00) as [[Ha [Hb [Hc _]]] _].
    change (b2z x00) with 0 in *. rewrite Z.add_0_r in Hc.
    repeat (apply Forall_cons;
            [first [apply plain_pad | apply plain_base64_char; assumption]|]).
    apply Forall_nil.
  - destruct (sextets_of_bytes x y z) as [[Ha [Hb [Hc Hd]]] _].
    repeat (apply Forall_cons; [apply plain_base64_char; assumption|]).
    exact IH.
Qed.

Lemma nintendo_unsubst_subst (c : Z) :
  plain_base64 c -> nintendo_unsubst (nintendo_subst c) = c.
Proof.
  unfold plain_base64, nintendo_unsubst, nintendo_subst.
  change (chr "+") with 43. change (chr "/") with 47.
  change (chr "=") with 61. change (chr ".") with 46.
  change (chr "-") with 45. change (chr "*") with 42.
  intros (H1 & H2 & H3).
  repeat (destruct_if; try lia).
Qed.

Lemma nintendoBase64Encode_subst (d : JSString + Buffer) :
  nintendoBase64Encode d = map nintendo_subst (toString_base64 (Buffer_from d)).
Proof.
  unfold nintendoBase64Encode, replaceAll. rewrite !map_map.
  apply map_ext. intros c. unfold nintendo_subst.
  change (chr "+") with 43. change (chr "/") with 47.
  change (chr "=") with 61. change (chr ".") with 46.
  change (chr "-") with 45. change (chr "*") with 42.
  repeat (destruct_if; try lia).
Qed.

Lemma nintendoBase64Decode_unsubst (s : JSString) :
  nintendoBase64Decode s = Buffer_from_base64 (map nintendo_unsubst s).
Proof.
  unfold nintendoBase64Decode, replaceAll. rewrite !map_map. f_equal.
  apply map_ext. intros c. unfold nintendo_unsubst.
  change (chr "+") with 43. change (chr "/") with 47.
  change (chr "=") with 61. change (chr ".") with 46.
  change (chr "-") with 45. change (chr "*") with 42.
  repeat (destruct_if; try lia).
Qed.

(** C8. NintendoBase64 bijection: for every byte sequence [b] (the empty
    one and the all-0xFF ones included) decoding the encoding of [b] gives
    [b] back; the encoding is standard base64 followed by the substitutions
    [+] to [.], [/] to [-], [=] to [*], and decoding applies the inverse
    substitutions before standard base64 decoding. *)
Theorem nintendoBase64_roundtrip (b : Buffer) :
  nintendoBase64Decode (nintendoBase64Encode (inr b)) = b
  /\ nintendoBase64Encode (inr b) = map nintendo_subst (toString_base64 b)
  /\ (forall s : JSString,
        nintendoBase64Decode s = Buffer_from_base64 (map nintendo_unsubst s)).
Proof.
  split; [|split].
  - rewrite nintendoBase64Decode_unsubst, nintendoBase64Encode_subst.
    cbn [Buffer_from]. rewrite map_map.
    rewrite (map_ext_Forall _ (fun c => c)).
    + rewrite map_id. apply Buffer_from_base64_toString.
    + eapply Forall_impl; [|apply toString_base64_plain].
      intros c Hc. apply nintendo_unsubst_subst, Hc.
  - apply nintendoBase64Encode_subst.
  - apply nintendoBase64Decode_unsubst.
Qed.

Example nintendoBase64_empty :
  nintendoBase64Encode (inr []) = []
  /\ nintendoBase64Decode (nintendoBase64Encode (inr [])) = [].
Proof. split; reflexivity. Qed.

Example nintendoBase64_all_ff :
  nintendoBase64Encode (inr [xff; xff; xff; xff])
    = [chr "-"; chr "-"; chr "-"; chr "-"; chr "-"; chr "w"; chr "*"; chr "*"]
  /\ nintendoBase64Decode (nintendoBase64Encode (inr [xff; xff; xff; xff]))
     = [xff; xff; xff; xff].
Proof. split; reflexivity. Qed.

(** ** The password hash *)

Lemma hex_digit_table (n : Z) :
  0 <= n < 16 -> hex_digit n = nth (Z.to_nat n) lowercase_hex_digits 0.
Proof.
  intros H. remember (Z.to_nat n) as k eqn:Ek.
  assert (Hk : (k < 16)%nat) by lia.
  replace n with (Z.of_nat k) by lia. clear - Hk.
  do 16 (destruct k as [|k]; [reflexivity|]). lia.
Qed.

Lemma toString_hex_lowercase (b : Buffer) : toString_hex b = lowercase_hex b.
Proof.
  unfold toString_hex, lowercase_hex.
  induction b as [|x b IH]; [reflexivity|].
  cbn [flat_map]. rewrite IH. pose proof (b2z_range x).
  rewrite !hex_digit_table; [reflexivity| |]; Z.div_mod_to_equations; lia.
Qed.

Lemma write_uint_alloc (n : nat) (v : Z) :
  0 <= v < 256 ^ Z.of_nat n ->
  write_uint n (Buffer_alloc n) v 0 = Ok (le_bytes n v).
Proof.
  intros H. unfold write_uint, write_at, in_bounds, Buffer_alloc.
  replace ((0 <=? v) && (v <? 256 ^ Z.of_nat n)) with true
    by (symmetry; apply andb_true_iff; split; [apply Z.leb_le|apply Z.ltb_lt];
        lia).
  rewrite length_le_bytes, repeat_length. cbn [Nat.add].
  rewrite Nat.leb_refl. cbn [firstn app].
  rewrite skipn_all2 by (rewrite repeat_length; lia).
  rewrite app_nil_r. reflexivity.
Qed.

Section PasswordHash.
Context {crypto : Crypto}.

(** C9. For every password string and every [pid] that fits in 32 bits,
    [nintendoPasswordHash] returns the lowercase-hex rendering of the SHA-256
    digest of the 4-byte little-endian [pid], followed by the fixed 4-byte
    marker, followed by the UTF-8 bytes of the password.  The result is a
    function of the two inputs alone. *)
Theorem nintendoPasswordHash_spec (password : JSString) (pid : Z) :
  0 <= pid < 2 ^ 32 ->
  nintendoPasswordHash password pid = Ok (PasswordHasher_hash password pid).
Proof.
  intros H. unfold nintendoPasswordHash, PasswordHasher_hash, writeUInt32LE.
  rewrite (write_uint_alloc 4)
    by (change (256 ^ Z.of_nat 4) with (2 ^ 32); lia).
  cbn [bind]. rewrite toString_hex_lowercase.
  change (utf8_encode [0x02; 0x65; 0x43; 0x46]) with PasswordHasher_marker.
  reflexivity.
Qed.

End PasswordHash.

Lemma nintendoPasswordHash_spec_witness :
  0 <= 1799999999 < 2 ^ 32
  /\ @nintendoPasswordHash xor_crypto [chr "p"; chr "w"; 0xE9] 1799999999
     = Ok (@PasswordHasher_hash xor_crypto [chr "p"; chr "w"; 0xE9] 1799999999).
Proof.
  split; [lia|].
  apply (@nintendoPasswordHash_spec xor_crypto). lia.
Defined.

(** ** Buffers *)

Lemma subarray_inside (buf : Buffer) (s e : Z) :
  0 <= s <= e -> e <= Z.of_nat (length buf) ->
  subarray buf s e = firstn (Z.to_nat (e - s)) (skipn (Z.to_nat s) buf).
Proof.
  intros Hs He. unfold subarray, clamp_index.
  destruct (Z.ltb_spec s 0); [lia|]. destruct (Z.ltb_spec e 0); [lia|].
  rewrite !Z.min_l by lia. reflexivity.
Qed.

Lemma subarray_app_l (a b : Buffer) :
  subarray (a ++ b) 0 (Z.of_nat (length a)) = a.
Proof.
  rewrite subarray_inside by (rewrite ?length_app; lia).
  rewrite Z.sub_0_r, Nat2Z.id. cbn [Z.to_nat skipn].
  rewrite firstn_app, Nat.sub_diag, firstn_all. cbn [firstn].
  apply app_nil_r.
Qed.

Lemma subarray_app_mid (a b c : Buffer) :
  subarray (a ++ b ++ c) (Z.of_nat (length a))
    (Z.of_nat (length a) + Z.of_nat (length b)) = b.
Proof.
  rewrite subarray_inside by (rewrite ?length_app; lia).
  replace (Z.of_nat (length a) + Z.of_nat (length b) - Z.of_nat (length a))
    with (Z.of_nat (length b)) by lia.
  rewrite !Nat2Z.id, skipn_app, skipn_all, Nat.sub_diag. cbn [skipn app].
  rewrite firstn_app, Nat.sub_diag, firstn_all. cbn [firstn].
  apply app_nil_r.
Qed.

Lemma subarray_from_app (a b : Buffer) :
  subarray_from (a ++ b) (Z.of_nat (length a)) = b.
Proof.
  unfold subarray_from.
  rewrite subarray_inside by (rewrite ?length_app; lia).
  rewrite Nat2Z.id, skipn_app, skipn_all, Nat.sub_diag. cbn [skipn app].
  apply firstn_all2. rewrite length_app. lia.
Qed.

Lemma subarray_window (buf : Buffer) (p : Z) :
  0 <= p -> p + 8 <= Z.of_nat (length buf) ->
  length (subarray buf p (p + 8)) = 8%nat.
Proof.
  intros H0 H1. rewrite subarray_inside by lia.
  rewrite length_firstn, length_skipn. lia.
Qed.

Lemma length_derive_iv (ek : Buffer) (p1 p2 : Z) :
  0 <= p1 -> p1 + 8 <= Z.of_nat (length ek) ->
  0 <= p2 -> p2 + 8 <= Z.of_nat (length ek) ->
  length (derive_iv ek p1 p2) = 16%nat.
Proof.
  intros. unfold derive_iv.
  rewrite length_app, !subarray_window by assumption. reflexivity.
Qed.

Lemma read_at_app (a b c : Buffer) :
  read_at (a ++ b ++ c) (length a) (length b) = Ok b.
Proof.
  unfold read_at, in_bounds.
  replace (length a + length b <=? length (a ++ b ++ c))%nat with true
    by (symmetry; apply Nat.leb_le; rewrite !length_app; lia).
  rewrite skipn_app, skipn_all, Nat.sub_diag. cbn [skipn app].
  rewrite firstn_app, Nat.sub_diag, firstn_all. cbn [firstn].
  rewrite app_nil_r. reflexivity.
Qed.

Lemma read_uint_app (n : nat) (a c : Buffer) (v : Z) :
  0 <= v < 256 ^ Z.of_nat n ->
  read_uint n (a ++ le_bytes n v ++ c) (length a) = Ok v.
Proof.
  intros H. unfold read_uint.
  rewrite <- (length_le_bytes n v) at 2. rewrite read_at_app.
  cbn [bind]. rewrite le_value_le_bytes by assumption. reflexivity.
Qed.

Lemma readInt8_byte (a c : Buffer) (b : byte) :
  readInt8 (a ++ b :: c) (length a) = Ok (as_int8 (b2z b)).
Proof.
  unfold readInt8. rewrite <- (z2b_b2z b) at 1.
  change (z2b (b2z b) :: c) with (le_bytes 1 (b2z b) ++ c).
  rewrite read_uint_app
    by (change (256 ^ Z.of_nat 1) with 256; apply b2z_range).
  reflexivity.
Qed.

Lemma as_int8_small (p : Z) : 0 <= p < 128 -> as_int8 (b2z (z2b p)) = p.
Proof.
  intros H. rewrite b2z_z2b by lia. unfold as_int8.
  destruct (Z.ltb_spec p 128); [reflexivity|lia].
Qed.


Lemma read_at_short (buf : Buffer) (off n : nat) :
  (length buf < off + n)%nat -> read_at buf off n = Throw RangeError.
Proof.
  intros H. unfold read_at, in_bounds.
  destruct (Nat.leb_spec (off + n) (length buf)); [lia|reflexivity].
Qed.

(** ** The two points *)

Lemma round53_bounds (x n : Z) :
  0 <= x -> 0 < n -> x + n <= n * 2 ^ 53 -> 0 <= round53 x < n * 2 ^ 53.
Proof.
  intros Hx Hn0 Hn. unfold round53.
  destruct (Z.leb_spec (Z.log2 x - 52) 0) as [Hs|Hs]; [lia|].
  set (s := Z.log2 x - 52) in *.
  assert (Hpos : 0 < x).
  { destruct (Z.eq_dec x 0) as [->|]; [|lia].
    unfold s in Hs. rewrite Z.log2_nonpos in Hs; lia. }
  destruct (Z.log2_spec x Hpos) as [Hlo _].
  replace (Z.log2 x) with ((s - 1) + 53) in Hlo by (unfold s; lia).
  rewrite Z.pow_add_r in Hlo by lia.
  assert (Hh : 0 < 2 ^ (s - 1)) by (apply Z.pow_pos_nonneg; lia).
  assert (E2 : 2 ^ s = 2 * 2 ^ (s - 1)).
  { replace s with (Z.succ (s - 1)) at 1 by lia.
    rewrite Z.pow_succ_r by lia. reflexivity. }
  set (h := 2 ^ (s - 1)) in *. rewrite E2.
  assert (H53 : 0 < 2 ^ 53) by reflexivity.
  assert (Hhn : h < n) by nia.
  pose proof (Z.div_mod x (2 * h) ltac:(lia)) as Hdm.
  pose proof (Z.mod_pos_bound x (2 * h) ltac:(lia)) as Hr.
  assert (Hq : 0 <= x / (2 * h)) by (apply Z.div_pos; lia).
  set (q := x / (2 * h)) in *. set (r := x mod (2 * h)) in *.
  destruct ((h <? r) || ((r =? h) && Z.odd q)) eqn:E.
  - assert (h <= r).
    { apply orb_true_iff in E. destruct E as [E|E].
      - apply Z.ltb_lt in E. lia.
      - apply andb_true_iff in E. destruct E as [E _].
        apply Z.eqb_eq in E. lia. }
    nia.
  - nia.
Qed.

Lemma ToInt32_small (z : Z) : 0 <= z < 2 ^ 31 -> ToInt32 z = z.
Proof.
  intros H. unfold ToInt32. rewrite Z.mod_small; lia.
Qed.

Lemma random_point_range (n : Z) (r : JSDouble01) :
  is_double01 r -> 0 < n < 2 ^ 31 -> 0 <= random_point n r < n.
Proof.
  intros [Hm He] Hn. unfold random_point.
  rewrite Z.sgn_pos, Z.abs_eq, Z.mul_1_l by lia.
  assert (H53 : 0 < 2 ^ 53) by reflexivity.
  destruct (round53_bounds (n * mantissa r) n) as [Hlo Hhi]; [nia|lia|nia|].
  assert (Hpow : 2 ^ 53 <= 2 ^ exponent r)
    by (apply Z.pow_le_mono_r; lia).
  assert (Hd : 0 <= round53 (n * mantissa r) / 2 ^ exponent r < n).
  { split; [apply Z.div_pos; lia|].
    apply Z.div_lt_upper_bound; [lia|]. nia. }
  rewrite ToInt32_small; lia.
Qed.

(** ** PKCS#7 padding *)

Lemma length_pkcs7_pad (data : Buffer) :
  length (pkcs7_pad data) = (16 * (length data / 16 + 1))%nat.
Proof.
  unfold pkcs7_pad. rewrite length_app, repeat_length.
  pose proof (Nat.div_mod_eq (length data) 16).
  pose proof (Nat.mod_upper_bound (length data) 16). lia.
Qed.

Lemma last_app_repeat (data : Buffer) (b : byte) (n : nat) :
  (0 < n)%nat -> last (data ++ repeat b n) x00 = b.
Proof.
  intros H. destruct n as [|n]; [lia|].
  replace (repeat b (S n)) with (repeat b n ++ [b])
    by (rewrite <- repeat_cons; reflexivity).
  rewrite app_assoc. apply last_last.
Qed.

Lemma forallb_eqb_repeat (b : byte) (n : nat) :
  forallb (Byte.eqb b) (repeat b n) = true.
Proof.
  induction n as [|n IH]; [reflexivity|].
  cbn [repeat forallb]. rewrite IH, Byte.byte_dec_lb; reflexivity.
Qed.


Lemma pkcs7_unpad_pad (data : Buffer) :
  pkcs7_unpad (pkcs7_pad data) = Some data.
Proof.
  unfold pkcs7_unpad, pkcs7_pad.
  pose proof (Nat.mod_upper_bound (length data) 16 ltac:(lia)) as Hm.
  set (n := (16 - length data mod 16)%nat) in *.
  assert (Hn : (1 <= n <= 16)%nat) by lia.
  rewrite last_app_repeat by lia.
  rewrite b2z_z2b by lia. rewrite Nat2Z.id.
  rewrite length_app, repeat_length.
  replace (length data + n - n)%nat with (length data) by lia.
  rewrite skipn_app, skipn_all, Nat.sub_diag. cbn [skipn app].
  rewrite forallb_eqb_repeat.
  rewrite firstn_app, Nat.sub_diag, firstn_all. cbn [firstn].
  rewrite app_nil_r.
  destruct (Nat.leb_spec 1 n); [|lia]. destruct (Nat.leb_spec n 16); [|lia].
  reflexivity.
Qed.


(** ** CBC chaining *)

Section CBC.
Context {crypto : Crypto} (laws : CryptoLaws crypto).

Lemma length_firstn_block (n : nat) (data : Buffer) :
  length data = (16 * S n)%nat -> length (firstn 16 data) = 16%nat.
Proof. intros H. rewrite length_firstn. lia. Qed.

Lemma length_skipn_block (n : nat) (data : Buffer) :
  length data = (16 * S n)%nat -> length (skipn 16 data) = (16 * n)%nat.
Proof. intros H. rewrite length_skipn. lia. Qed.

Lemma length_cbc_encrypt_blocks (n : nat) : forall key prev data,
  length key = 16%nat -> length prev = 16%nat ->
  length data = (16 * n)%nat ->
  length (cbc_encrypt_blocks key prev n data) = (16 * n)%nat.
Proof.
  induction n as [|n IH]; intros key prev data Hk Hp Hd; [reflexivity|].
  cbn [cbc_encrypt_blocks]. rewrite length_app.
  assert (Hx : length (xor_bytes (firstn 16 data) prev) = 16%nat)
    by (rewrite length_xor_bytes, (length_firstn_block n), Hp by assumption;
        reflexivity).
  rewrite (aes_encrypt_length _ laws) by assumption.
  rewrite IH; [lia|assumption| |].
  - apply (aes_encrypt_length _ laws); assumption.
  - apply length_skipn_block, Hd.
Qed.


Lemma cbc_decrypt_encrypt_blocks (n : nat) : forall key prev data,
  length key = 16%nat -> length prev = 16%nat ->
  length data = (16 * n)%nat ->
  cbc_decrypt_blocks key prev n (cbc_encrypt_blocks key prev n data) = data.
Proof.
  induction n as [|n IH]; intros key prev data Hk Hp Hd.
  - destruct data; [reflexivity|discriminate].
  - cbn [cbc_encrypt_blocks cbc_decrypt_blocks].
    set (x := xor_bytes (firstn 16 data) prev).
    assert (Hx : length x = 16%nat)
      by (unfold x;
          rewrite length_xor_bytes, (length_firstn_block n), Hp by assumption;
          reflexivity).
    set (c := aes128_encrypt_block key x).
    assert (Hc : length c = 16%nat)
      by (apply (aes_encrypt_length _ laws); assumption).
    rewrite firstn_app, Hc, Nat.sub_diag, firstn_all2 by lia.
    cbn [firstn]. rewrite app_nil_r.
    rewrite skipn_app, Hc, Nat.sub_diag, skipn_all2 by lia.
    cbn [skipn app].
    unfold c. rewrite (aes_decrypt_encrypt _ laws) by assumption.
    unfold x. rewrite xor_bytes_cancel
      by (rewrite (length_firstn_block n), Hp by assumption; reflexivity).
    rewrite IH; [apply firstn_skipn|assumption|exact Hc|].
    apply length_skipn_block, Hd.
Qed.


Lemma length_aes128_cbc_encrypt (key iv plain : Buffer) :
  length key = 16%nat -> length iv = 16%nat ->
  length (aes128_cbc_encrypt key iv plain)
  = (16 * (length plain / 16 + 1))%nat.
Proof.
  intros Hk Hi. unfold aes128_cbc_encrypt.
  assert (Hn : (length (pkcs7_pad plain) / 16 = length plain / 16 + 1)%nat)
    by (rewrite length_pkcs7_pad, Nat.mul_comm, Nat.div_mul; lia).
  rewrite Hn. apply length_cbc_encrypt_blocks; try assumption.
  apply length_pkcs7_pad.
Qed.

Lemma decipher_cipher (key iv plain : Buffer) :
  length key = 16%nat -> length iv = 16%nat ->
  decipher_update_final {| cipher_key := key; cipher_iv := iv |}
    (aes128_cbc_encrypt key iv plain) = Ok plain.
Proof.
  intros Hk Hi. unfold decipher_update_final. cbn [cipher_key cipher_iv].
  rewrite length_aes128_cbc_encrypt by assumption.
  set (n := (length plain / 16 + 1)%nat).
  replace ((16 * n) mod 16)%nat with 0%nat
    by (rewrite Nat.mul_comm, Nat.Div0.mod_mul; reflexivity).
  replace (16 * n =? 0)%nat with false
    by (symmetry; apply Nat.eqb_neq; unfold n; lia).
  cbn [orb negb Nat.eqb].
  replace (16 * n / 16)%nat with n by (rewrite Nat.mul_comm, Nat.div_mul; lia).
  unfold aes128_cbc_encrypt.
  replace (length (pkcs7_pad plain) / 16)%nat with n
    by (rewrite length_pkcs7_pad, Nat.mul_comm, Nat.div_mul; lia).
  rewrite cbc_decrypt_encrypt_blocks
    by (try assumption; apply length_pkcs7_pad).
  rewrite pkcs7_unpad_pad. reflexivity.
Qed.


End CBC.

(** ** Packing and unpacking the fields *)

Lemma write_uint_ok (n : nat) (buf : Buffer) (v : Z) (off : nat) :
  0 <= v < 256 ^ Z.of_nat n -> (off + n <= length buf)%nat ->
  write_uint n buf v off
  = Ok (firstn off buf ++ le_bytes n v ++ skipn (off + n) buf).
Proof.
  intros Hv Hb. unfold write_uint, write_at, in_bounds.
  replace ((0 <=? v) && (v <? 256 ^ Z.of_nat n)) with true
    by (symmetry; apply andb_true_iff; split; [apply Z.leb_le|apply Z.ltb_lt];
        lia).
  rewrite length_le_bytes.
  replace (off + n <=? length buf)%nat with true
    by (symmetry; apply Nat.leb_le; assumption).
  reflexivity.
Qed.

Ltac write_step :=
  rewrite write_uint_ok by (first [assumption | cbn; lia]);
  cbn [bind firstn skipn app repeat le_bytes Nat.add Buffer_alloc].

Lemma pack_short (system_type token_type pid expire_time : Z) :
  0 <= system_type < 256 -> 0 <= token_type < 256 ->
  0 <= pid < 2 ^ 32 -> 0 <= expire_time < 2 ^ 64 ->
  (b <- writeUInt8 (Buffer_alloc (1 + 1 + 4 + 8)) system_type 0x0 ;;
   b <- writeUInt8 b token_type 0x1 ;;
   b <- writeUInt32LE b pid 0x2 ;;
   writeBigUInt64LE b expire_time 0x6)
  = Ok (short_plaintext system_type token_type pid expire_time).
Proof.
  intros H1 H2 H3 H4.
  change (2 ^ 32) with (256 ^ Z.of_nat 4) in H3.
  change (2 ^ 64) with (256 ^ Z.of_nat 8) in H4.
  change 256 with (256 ^ Z.of_nat 1) in H1, H2.
  unfold writeUInt8, writeUInt32LE, writeBigUInt64LE.
  do 4 write_step. reflexivity.
Qed.

Lemma pack_long
    (system_type token_type pid access_level title_id expire_time : Z) :
  0 <= system_type < 256 -> 0 <= token_type < 256 ->
  0 <= pid < 2 ^ 32 -> 0 <= access_level < 256 ->
  0 <= title_id < 2 ^ 64 -> 0 <= expire_time < 2 ^ 64 ->
  (b <- writeUInt8 (Buffer_alloc (1 + 1 + 4 + 1 + 8 + 8)) system_type 0x0 ;;
   b <- writeUInt8 b token_type 0x1 ;;
   b <- writeUInt32LE b pid 0x2 ;;
   b <- writeUInt8 b access_level 0x6 ;;
   b <- writeBigUInt64LE b title_id 0x7 ;;
   writeBigUInt64LE b expire_time 0xF)
  = Ok (long_plaintext system_type token_type pid access_level title_id
          expire_time).
Proof.
  intros H1 H2 H3 H4 H5 H6.
  change (2 ^ 32) with (256 ^ Z.of_nat 4) in H3.
  change (2 ^ 64) with (256 ^ Z.of_nat 8) in H5, H6.
  change 256 with (256 ^ Z.of_nat 1) in H1, H2, H4.
  unfold writeUInt8, writeUInt32LE, writeBigUInt64LE.
  do 6 write_step. reflexivity.
Qed.

Lemma length_short_plaintext (s t p e : Z) :
  length (short_plaintext s t p e) = 14%nat.
Proof. reflexivity. Qed.

Lemma length_long_plaintext (s t p a i e : Z) :
  length (long_plaintext s t p a i e) = 23%nat.
Proof. reflexivity. Qed.

Ltac read_step n v :=
  match goal with
  | |- context [read_uint n ?buf ?off] =>
    let bs := eval cbn in (firstn n (skipn off buf)) in
    change (read_uint n buf off) with (bs' <- Ok bs ;; Ok (le_value bs'));
    cbn [bind];
    change bs with (le_bytes n v);
    rewrite (le_value_le_bytes n v) by assumption
  end.

Lemma unpack_short (system_type token_type pid expire_time : Z) :
  0 <= system_type < 256 -> 0 <= token_type < 256 ->
  0 <= pid < 2 ^ 32 -> 0 <= expire_time < 2 ^ 64 ->
  unpackToken (short_plaintext system_type token_type pid expire_time)
  = Ok (short_fields system_type token_type pid expire_time).
Proof.
  intros H1 H2 H3 H4.
  change (2 ^ 32) with (256 ^ Z.of_nat 4) in H3.
  change (2 ^ 64) with (256 ^ Z.of_nat 8) in H4.
  change 256 with (256 ^ Z.of_nat 1) in H1, H2.
  unfold unpackToken. rewrite length_short_plaintext.
  cbn [Nat.leb]. unfold readUInt8, readUInt32LE, readBigUInt64LE.
  unfold short_plaintext.
  read_step 1%nat system_type. read_step 1%nat token_type.
  read_step 4%nat pid. read_step 8%nat expire_time.
  reflexivity.
Qed.

Lemma unpack_long
    (system_type token_type pid access_level title_id expire_time : Z) :
  0 <= system_type < 256 -> 0 <= token_type < 256 ->
  0 <= pid < 2 ^ 32 -> 0 <= access_level < 256 ->
  0 <= title_id < 2 ^ 64 -> 0 <= expire_time < 2 ^ 64 ->
  unpackToken (long_plaintext system_type token_type pid access_level
                 title_id expire_time)
  = Ok (long_fields system_type token_type pid access_level title_id
          expire_time).
Proof.
  intros H1 H2 H3 H4 H5 H6.
  change (2 ^ 32) with (256 ^ Z.of_nat 4) in H3.
  change (2 ^ 64) with (256 ^ Z.of_nat 8) in H5, H6.
  change 256 with (256 ^ Z.of_nat 1) in H1, H2, H4.
  unfold unpackToken. rewrite length_long_plaintext.
  cbn [Nat.leb]. unfold readUInt8, readUInt32LE, readBigUInt64LE.
  unfold long_plaintext.
  read_step 1%nat system_type. read_step 1%nat token_type.
  read_step 4%nat pid. read_step 1%nat access_level.
  read_step 8%nat title_id. read_step 8%nat expire_time.
  reflexivity.
Qed.

(** ** The long wire layout *)

Lemma long_token_slices (ek sig body : Buffer) (b1 b2 : byte) :
  length ek = 128%nat -> length sig = 20%nat ->
  let token := (ek ++ [b1; b2]) ++ sig ++ body in
  subarray token 0 0x82 = ek ++ [b1; b2]
  /\ subarray token 0x82 0x96 = sig
  /\ subarray_from token 0x96 = body
  /\ subarray (ek ++ [b1; b2]) 0 128 = ek.
Proof.
  intros Hek Hsig token. unfold token.
  assert (Hc : length (ek ++ [b1; b2]) = 130%nat)
    by (rewrite length_app, Hek; reflexivity).
  repeat split.
  - replace 0x82 with (Z.of_nat (length (ek ++ [b1; b2])))
      by (rewrite Hc; reflexivity).
    apply subarray_app_l.
  - replace 0x82 with (Z.of_nat (length (ek ++ [b1; b2])))
      by (rewrite Hc; reflexivity).
    replace 0x96
      with (Z.of_nat (length (ek ++ [b1; b2])) + Z.of_nat (length sig))
      by (rewrite Hc, Hsig; reflexivity).
    apply subarray_app_mid.
  - rewrite app_assoc.
    replace 0x96 with (Z.of_nat (length ((ek ++ [b1; b2]) ++ sig)))
      by (rewrite length_app, Hc, Hsig; reflexivity).
    apply subarray_from_app.
  - replace 128 with (Z.of_nat (length ek)) by (rewrite Hek; reflexivity).
    apply subarray_app_l.
Qed.

Section Token.
Context {crypto : Crypto}.

(** What [decryptToken] does with a token of at least 0x96 bytes. *)
Lemma decryptToken_long (keys : ServiceKeys) (ek sig body : Buffer)
    (b1 b2 : byte) :
  length ek = 128%nat -> length sig = 20%nat ->
  decryptToken keys ((ek ++ [b1; b2]) ++ sig ++ body)
  = (decryptedAESKey <-
       match rsa_oaep_decrypt (private_key keys) ek with
       | Some k => Ok k
       | None => Throw ERR_RSA_DECRYPT
       end ;;
     decipher <-
       createDecipheriv decryptedAESKey
         (derive_iv ek (as_int8 (b2z b1)) (as_int8 (b2z b2))) ;;
     decryptedBody <- decipher_update_final decipher body ;;
     if negb (Buffer_equals sig (hmac_sha1 (secret_key keys) decryptedBody))
     then Ok (Buffer_alloc 0)
     else Ok decryptedBody).
Proof.
  intros Hek Hsig. unfold decryptToken.
  destruct (long_token_slices ek sig body b1 b2 Hek Hsig)
    as (E1 & E2 & E3 & E4).
  cbv zeta in E1, E2, E3. rewrite E1, E2, E3, E4.
  replace (length ((ek ++ [b1; b2]) ++ sig ++ body) <=? 32)%nat
    with false
    by (symmetry; apply Nat.leb_gt; rewrite !length_app, Hek, Hsig; cbn; lia).
  replace (readInt8 (ek ++ [b1; b2]) 0x80) with (Ok (as_int8 (b2z b1))).
  2:{ symmetry. replace 0x80%nat with (length ek) by (rewrite Hek; reflexivity).
      apply readInt8_byte. }
  replace (readInt8 (ek ++ [b1; b2]) 0x81) with (Ok (as_int8 (b2z b2))).
  2:{ symmetry. change (ek ++ [b1; b2]) with (ek ++ [b1] ++ [b2]).
      rewrite app_assoc.
      replace 0x81%nat with (length (ek ++ [b1]))
        by (rewrite length_app, Hek; reflexivity).
      apply readInt8_byte. }
  cbn [bind]. reflexivity.
Qed.

End Token.

(** ** What [generateToken] returns *)

Lemma createCipheriv_ok {crypto : Crypto} (key iv : Buffer) :
  length key = 16%nat -> length iv = 16%nat ->
  createCipheriv key iv = Ok {| cipher_key := key; cipher_iv := iv |}.
Proof.
  intros Hk Hi. unfold createCipheriv. rewrite Hk, Hi. reflexivity.
Qed.

Section Generate.
Context {crypto : Crypto}.

Lemma generateToken_short (keys : ServiceKeys) (rnd : Entropy)
    (F : TokenOptions) :
  length (aes_key keys) = 16%nat -> fields_in_range F ->
  generateToken keys rnd None F
  = Ok (Some (toString_base64
                (aes128_cbc_encrypt (aes_key keys) (Buffer_alloc 16)
                   (short_plaintext (system_type F) (token_type F) (pid F)
                      (expire_time F))))).
Proof.
  intros Hk (H1 & H2 & H3 & H4).
  change (2 ^ 32) with (256 ^ Z.of_nat 4) in H3.
  change (2 ^ 64) with (256 ^ Z.of_nat 8) in H4.
  change 256 with (256 ^ Z.of_nat 1) in H1, H2.
  unfold generateToken, writeUInt8, writeUInt32LE, writeBigUInt64LE.
  do 4 write_step.
  rewrite createCipheriv_ok by (assumption || reflexivity).
  reflexivity.
Qed.

Lemma generateToken_long (keys : ServiceKeys) (rnd : Entropy)
    (co : CryptoOptions) (F : TokenOptions) (al tid : Z) :
  access_level F = Some al -> title_id F = Some tid ->
  al <> 0 -> tid <> 0 ->
  fields_in_range F -> 0 <= al < 256 -> 0 <= tid < 2 ^ 64 ->
  let plain :=
    long_plaintext (system_type F) (token_type F) (pid F) al tid
      (expire_time F) in
  let ek :=
    rsa_oaep_encrypt (public_key co) (oaep_seed rnd) (randomBytes16 rnd) in
  let p1 := random_point (Z.of_nat (length ek) - 8) (random1 rnd) in
  let p2 := random_point (Z.of_nat (length ek) - 8) (random2 rnd) in
  generateToken keys rnd (Some co) F
  = (cipher <- createCipheriv (randomBytes16 rnd) (derive_iv ek p1 p2) ;;
     Ok (Some (toString_base64
                 ((ek ++ [z2b p1; z2b p2]) ++ hmac_sha1 (hmac_secret co) plain
                    ++ cipher_update_final cipher plain)))).
Proof.
  intros Ea Et Hal Htid (H1 & H2 & H3 & H4) H5 H6.
  change (2 ^ 32) with (256 ^ Z.of_nat 4) in H3.
  change (2 ^ 64) with (256 ^ Z.of_nat 8) in H4, H6.
  change 256 with (256 ^ Z.of_nat 1) in H1, H2, H5.
  unfold generateToken. rewrite Ea, Et. cbn [falsy].
  destruct (Z.eqb_spec al 0); [contradiction|].
  destruct (Z.eqb_spec tid 0); [contradiction|].
  cbn [orb]. unfold writeUInt8, writeUInt32LE, writeBigUInt64LE.
  do 6 write_step. reflexivity.
Qed.

End Generate.

(** ** The sample primitives satisfy the assumptions *)

Lemma xor_crypto_laws : CryptoLaws xor_crypto.
Proof.
  split; cbn [aes128_encrypt_block aes128_decrypt_block hmac_sha1 xor_crypto].
  - intros k b Hk Hb. rewrite length_xor_bytes, Hk, Hb. reflexivity.
  - intros k b Hk Hb. rewrite length_xor_bytes, Hk, Hb. reflexivity.
  - intros k b Hk Hb. apply xor_bytes_cancel. congruence.
  - intros k b Hk Hb. apply xor_bytes_cancel. congruence.
  - intros k m.
    rewrite length_firstn, length_xor_bytes, !length_app, !repeat_length. lia.
Qed.

Lemma xor_crypto_key_pair (pub priv : Buffer) :
  rsa1024_key_pair xor_crypto pub priv.
Proof.
  intros seed m Hm. cbn [rsa_oaep_encrypt rsa_oaep_decrypt xor_crypto].
  assert (Hl : length (firstn 128 (m ++ seed ++ filler 128)) = 128%nat)
    by (unfold filler;
        rewrite length_firstn, !length_app, length_map, length_seq; lia).
  split; [exact Hl|]. rewrite Hl. cbn [Nat.eqb]. f_equal.
  rewrite firstn_firstn. cbn [Nat.min].
  rewrite firstn_app, Hm, Nat.sub_diag, firstn_all2 by lia.
  cbn [firstn]. apply app_nil_r.
Qed.

Lemma sample_entropy_ok : entropy_ok sample_entropy.
Proof.
  repeat split; cbn; try lia; discriminate.
Qed.

(** ** Short tokens *)

Section Short.
Context {crypto : Crypto}.

Lemma decodeToken_short (keys : ServiceKeys) (plain : Buffer) :
  CryptoLaws crypto -> length (aes_key keys) = 16%nat ->
  (length plain < 16)%nat ->
  decodeToken keys
    (toString_base64
       (aes128_cbc_encrypt (aes_key keys) (Buffer_alloc 16) plain))
  = unpackToken plain.
Proof.
  intros laws Hk Hp. unfold decodeToken, decodeBytes, decryptToken.
  rewrite Buffer_from_base64_toString.
  rewrite (length_aes128_cbc_encrypt laws) by (assumption || reflexivity).
  rewrite Nat.div_small by assumption. cbn [Nat.add Nat.mul Nat.leb].
  unfold createDecipheriv.
  rewrite createCipheriv_ok by (assumption || reflexivity). cbn [bind].
  rewrite (decipher_cipher laws) by (assumption || reflexivity).
  reflexivity.
Qed.

(** C5. Short-token round trip and layout: for every short field set in
    range and every 16-byte AES key, [generateToken(null, F)] returns the
    base64 text of the AES-128-CBC encryption, under the all-zero 16-byte
    IV, of the 14-byte plaintext that holds [system_type] at byte 0,
    [token_type] at byte 1, [pid] as 4 little-endian bytes at byte 2 and
    [expire_time] as 8 little-endian bytes at byte 6; decoding it under the
    same key gives the field set back. *)
Theorem short_token_roundtrip (keys : ServiceKeys) (rnd : Entropy)
    (system_type token_type pid expire_time : Z) :
  CryptoLaws crypto -> length (aes_key keys) = 16%nat ->
  0 <= system_type < 256 -> 0 <= token_type < 256 ->
  0 <= pid < 2 ^ 32 -> 0 <= expire_time < 2 ^ 64 ->
  let F := short_fields system_type token_type pid expire_time in
  let plain :=
    [z2b system_type; z2b token_type] ++ le_bytes 4 pid
      ++ le_bytes 8 expire_time in
  length plain = 14%nat
  /\ generateToken keys rnd None F
     = Ok (Some (toString_base64
                   (aes128_cbc_encrypt (aes_key keys) (repeat x00 16) plain)))
  /\ decodeToken keys
       (toString_base64
          (aes128_cbc_encrypt (aes_key keys) (repeat x00 16) plain))
     = Ok F.
Proof.
  intros laws Hk H1 H2 H3 H4 F plain.
  split; [reflexivity|]. split.
  - apply (generateToken_short keys rnd F Hk).
    unfold fields_in_range, F, short_fields.
    cbn. lia.
  - change (repeat x00 16) with (Buffer_alloc 16).
    rewrite decodeToken_short by (try assumption; cbn; lia).
    apply unpack_short; assumption.
Qed.

End Short.

Lemma short_token_roundtrip_witness :
  let plain :=
    [z2b 0x0F; z2b 0x05] ++ le_bytes 4 100000 ++ le_bytes 8 1700000000000 in
  length plain = 14%nat
  /\ @generateToken xor_crypto sample_keys sample_entropy None
       sample_short_fields
     = Ok (Some (toString_base64
                   (@aes128_cbc_encrypt xor_crypto (repeat x00 16)
                      (repeat x00 16) plain)))
  /\ @decodeToken xor_crypto sample_keys
       (toString_base64
          (@aes128_cbc_encrypt xor_crypto (repeat x00 16) (repeat x00 16)
             plain))
     = Ok sample_short_fields.
Proof.
  apply (@short_token_roundtrip xor_crypto sample_keys sample_entropy
           0x0F 0x05 100000 1700000000000 xor_crypto_laws);
    solve [reflexivity | lia].
Defined.

(** ** A token that was produced had fields in range *)

Lemma write_uint_inv (n : nat) (buf b : Buffer) (v : Z) (off : nat) :
  write_uint n buf v off = Ok b ->
  0 <= v < 256 ^ Z.of_nat n /\ length b = length buf.
Proof.
  unfold write_uint, write_at, in_bounds.
  destruct (Z.leb_spec 0 v); [|discriminate].
  destruct (Z.ltb_spec v (256 ^ Z.of_nat n)); [|discriminate].
  cbn [andb]. rewrite length_le_bytes.
  destruct (Nat.leb_spec (off + n) (length buf)); [|discriminate].
  intros H'. injection H' as <-. split; [lia|].
  rewrite !length_app, length_firstn, length_skipn, length_le_bytes. lia.
Qed.

Lemma bind_Ok {A B : Type} (r : result A) (k : A -> result B) (b : B) :
  (x <- r ;; k x) = Ok b -> exists a, r = Ok a /\ k a = Ok b.
Proof.
  destruct r as [a|e]; [|discriminate]. intros H. exists a. auto.
Qed.

Lemma createCipheriv_inv {crypto : Crypto} (key iv : Buffer) (c : Cipher) :
  createCipheriv key iv = Ok c ->
  length key = 16%nat /\ length iv = 16%nat
  /\ c = {| cipher_key := key; cipher_iv := iv |}.
Proof.
  unfold createCipheriv.
  destruct (Nat.eqb_spec (length iv) 16); [|discriminate].
  destruct (Nat.eqb_spec (length key) 16); [|discriminate].
  cbn [negb]. intros H. injection H as <-. auto.
Qed.

Ltac invert_write H :=
  let b := fresh "b" in
  let Hw := fresh "Hw" in
  let Hv := fresh "Hv" in
  let Hl := fresh "Hl" in
  apply bind_Ok in H; destruct H as (b & Hw & H);
  apply write_uint_inv in Hw; destruct Hw as [Hv Hl].

Section Produced.
Context {crypto : Crypto}.

Lemma generateToken_short_inv (keys : ServiceKeys) (rnd : Entropy)
    (F : TokenOptions) (wire : JSString) :
  generateToken keys rnd None F = Ok (Some wire) ->
  length (aes_key keys) = 16%nat /\ fields_in_range F.
Proof.
  unfold generateToken, writeUInt8, writeUInt32LE, writeBigUInt64LE.
  intros H. do 4 invert_write H.
  apply bind_Ok in H. destruct H as (c & Hc & _).
  apply createCipheriv_inv in Hc. destruct Hc as (Hk & _ & _).
  split; [exact Hk|]. repeat split; lia.
Qed.

Lemma generateToken_long_inv (keys : ServiceKeys) (rnd : Entropy)
    (co : CryptoOptions) (F : TokenOptions) (wire : JSString) :
  generateToken keys rnd (Some co) F = Ok (Some wire) ->
  exists al tid,
    access_level F = Some al /\ title_id F = Some tid
    /\ al <> 0 /\ tid <> 0
    /\ fields_in_range F /\ 0 <= al < 256 /\ 0 <= tid < 2 ^ 64.
Proof.
  unfold generateToken.
  destruct (access_level F) as [al|]; [|discriminate].
  destruct (title_id F) as [tid|];
    [|cbn [falsy]; rewrite orb_true_r; discriminate].
  cbn [falsy].
  destruct (Z.eqb_spec al 0); [discriminate|].
  destruct (Z.eqb_spec tid 0); [discriminate|].
  cbn [orb]. unfold writeUInt8, writeUInt32LE, writeBigUInt64LE.
  intros H. do 6 invert_write H.
  exists al, tid. repeat split; try assumption; lia.
Qed.

End Produced.

(** ** Long tokens *)

Section Long.
Context {crypto : Crypto}.

(** The wire bytes of a long token. *)
Lemma generateToken_long_wire (keys : ServiceKeys) (rnd : Entropy)
    (co : CryptoOptions) (F : TokenOptions) (al tid : Z) :
  let ek :=
    rsa_oaep_encrypt (public_key co) (oaep_seed rnd) (randomBytes16 rnd) in
  let p1 := random_point 120 (random1 rnd) in
  let p2 := random_point 120 (random2 rnd) in
  let plain :=
    long_plaintext (system_type F) (token_type F) (pid F) al tid
      (expire_time F) in
  length ek = 128%nat -> entropy_ok rnd ->
  access_level F = Some al -> title_id F = Some tid ->
  al <> 0 -> tid <> 0 ->
  fields_in_range F -> 0 <= al < 256 -> 0 <= tid < 2 ^ 64 ->
  (0 <= p1 < 120 /\ 0 <= p2 < 120)
  /\ length (derive_iv ek p1 p2) = 16%nat
  /\ generateToken keys rnd (Some co) F
     = Ok (Some (toString_base64
                   ((ek ++ [z2b p1; z2b p2])
                      ++ hmac_sha1 (hmac_secret co) plain
                      ++ aes128_cbc_encrypt (randomBytes16 rnd)
                           (derive_iv ek p1 p2) plain))).
Proof.
  intros ek p1 p2 plain Hek (Hkey & Hr1 & Hr2) Ea Et Hal Htid HF Hal' Htid'.
  assert (Hp1 : 0 <= p1 < 120) by (apply random_point_range; [assumption|lia]).
  assert (Hp2 : 0 <= p2 < 120) by (apply random_point_range; [assumption|lia]).
  assert (Hiv : length (derive_iv ek p1 p2) = 16%nat)
    by (apply length_derive_iv; rewrite ?Hek; lia).
  split; [auto|]. split; [exact Hiv|].
  rewrite (generateToken_long keys rnd co F al tid) by assumption.
  fold ek. rewrite Hek. change (Z.of_nat 128 - 8) with 120.
  fold p1 p2. rewrite createCipheriv_ok by assumption.
  reflexivity.
Qed.

(** Decoding the wire bytes of a long token. *)
Lemma decryptToken_long_wire (keys : ServiceKeys) (ek sig key plain : Buffer)
    (p1 p2 : Z) :
  CryptoLaws crypto ->
  length ek = 128%nat -> length sig = 20%nat -> length key = 16%nat ->
  0 <= p1 < 120 -> 0 <= p2 < 120 ->
  rsa_oaep_decrypt (private_key keys) ek = Some key ->
  decryptToken keys
    ((ek ++ [z2b p1; z2b p2]) ++ sig
       ++ aes128_cbc_encrypt key (derive_iv ek p1 p2) plain)
  = if negb (Buffer_equals sig (hmac_sha1 (secret_key keys) plain))
    then Ok (Buffer_alloc 0)
    else Ok plain.
Proof.
  intros laws Hek Hsig Hkey Hp1 Hp2 Hrsa.
  rewrite decryptToken_long by assumption.
  rewrite !as_int8_small by lia.
  rewrite Hrsa. cbn [bind]. unfold createDecipheriv.
  assert (Hiv : length (derive_iv ek p1 p2) = 16%nat)
    by (apply length_derive_iv; rewrite ?Hek; lia).
  rewrite createCipheriv_ok by assumption. cbn [bind].
  rewrite (decipher_cipher laws) by assumption.
  reflexivity.
Qed.

(** X1. Long-token round trip, for a field set whose [access_level] and
    [title_id] are not zero: under an RSA key pair with a 1024-bit modulus
    and the HMAC secret the token was signed with, decoding the wire token
    that [generateToken] returns gives the field set back. *)
Theorem long_token_roundtrip (keys : ServiceKeys) (rnd : Entropy)
    (co : CryptoOptions)
    (system_type token_type pid access_level title_id expire_time : Z) :
  CryptoLaws crypto ->
  rsa1024_key_pair crypto (public_key co) (private_key keys) ->
  secret_key keys = hmac_secret co ->
  entropy_ok rnd ->
  0 <= system_type < 256 -> 0 <= token_type < 256 ->
  0 <= pid < 2 ^ 32 -> 0 < access_level < 256 ->
  0 < title_id < 2 ^ 64 -> 0 <= expire_time < 2 ^ 64 ->
  let F :=
    long_fields system_type token_type pid access_level title_id
      expire_time in
  exists wire,
    generateToken keys rnd (Some co) F = Ok (Some wire)
    /\ decodeToken keys wire = Ok F.
Proof.
  intros laws Hpair Hsecret Hrnd H1 H2 H3 H4 H5 H6 F.
  destruct (Hpair (oaep_seed rnd) (randomBytes16 rnd) (proj1 Hrnd))
    as [Hek Hrsa].
  destruct (generateToken_long_wire keys rnd co F access_level title_id Hek
              Hrnd eq_refl eq_refl)
    as ((Hp1 & Hp2) & Hiv & Hgen);
    [lia|lia|unfold fields_in_range, F, long_fields; cbn; lia|lia|lia|].
  eexists. split; [exact Hgen|].
  unfold decodeToken, decodeBytes. rewrite Buffer_from_base64_toString.
  rewrite (decryptToken_long_wire keys) with (key := randomBytes16 rnd);
    try assumption; [|apply (hmac_sha1_length _ laws)|apply Hrnd].
  rewrite Hsecret, Buffer_equals_refl. cbn [negb bind].
  apply unpack_long; assumption || lia.
Qed.


End Long.

Lemma long_token_roundtrip_witness :
  exists wire,
    @generateToken xor_crypto sample_keys sample_entropy
      (Some sample_crypto_options) sample_long_fields = Ok (Some wire)
    /\ @decodeToken xor_crypto sample_keys wire = Ok sample_long_fields.
Proof.
  apply (@long_token_roundtrip xor_crypto sample_keys sample_entropy
           sample_crypto_options 0x0F 0x05 100000 3 0x0005000010101000
           1700000000000 xor_crypto_laws (xor_crypto_key_pair _ _) eq_refl
           sample_entropy_ok);
    lia.
Defined.


(** ** Routing by length *)

Section Routing.
Context {crypto : Crypto}.


End Routing.


(** ** The validation gate *)

Section Gate.
Context {crypto : Crypto}.

Lemma generateToken_gate (keys : ServiceKeys) (rnd : Entropy)
    (co : CryptoOptions) (F : TokenOptions) :
  generateToken keys rnd (Some co) F = Ok None
  <-> falsy (access_level F) || falsy (title_id F) = true.
Proof.
  unfold generateToken.
  destruct (falsy (access_level F) || falsy (title_id F)) eqn:E;
    [split; reflexivity|].
  split; [|discriminate].
  apply orb_false_iff in E. destruct E as [Ea Et].
  destruct (access_level F) as [al|]; [|discriminate].
  destruct (title_id F) as [tid|]; [|discriminate].
  repeat match goal with
  | |- bind ?r _ = _ -> _ => destruct r; cbn [bind]
  end; discriminate.
Qed.

(** C2. The gate of [generateToken] tests the two fields for falsiness:
    with crypto material, [null] is returned exactly when [access_level] or
    [title_id] is missing or zero.  In particular a field set that carries
    both fields, with the values [access_level = 0] and [title_id = 0],
    gets [null] and no wire token. *)
Theorem validation_gate_rejects_zero (keys : ServiceKeys) (rnd : Entropy)
    (co : CryptoOptions) (F : TokenOptions)
    (system_type token_type pid expire_time : Z) :
  (generateToken keys rnd (Some co) F = Ok None
   <-> access_level F = None \/ access_level F = Some 0
       \/ title_id F = None \/ title_id F = Some 0)
  /\ generateToken keys rnd (Some co)
       (long_fields system_type token_type pid 0 0 expire_time)
     = Ok None.
Proof.
  split; [|reflexivity].
  rewrite generateToken_gate, orb_true_iff. unfold falsy.
  destruct (access_level F) as [al|], (title_id F) as [tid|];
    repeat match goal with
    | |- context [?z =? 0] => destruct (Z.eqb_spec z 0); [subst|]
    end;
    split; auto; intros H;
    repeat match goal with
    | H : _ \/ _ |- _ => destruct H
    | H : Some _ = Some _ |- _ => injection H as H
    end; subst; try discriminate; try contradiction; auto.
Qed.

(** C1. The long-token round trip stops at the gate when a field is zero:
    the password-reset token that [sendForgotPasswordEmail] asks for, whose
    [title_id] is [BigInt(0)], is always [null], and so is the token of any
    long field set whose [access_level] or [title_id] is zero; there is no
    wire token to decode. *)
Theorem zero_field_has_no_long_token (keys : ServiceKeys) (rnd : Entropy)
    (co : CryptoOptions) (publicKey : Buffer)
    (system_type token_type pid access_level title_id expire_time now : Z) :
  passwordResetToken keys rnd publicKey pid access_level now = Ok None
  /\ generateToken keys rnd (Some co)
       (long_fields system_type token_type pid access_level 0 expire_time)
     = Ok None
  /\ generateToken keys rnd (Some co)
       (long_fields system_type token_type pid 0 title_id expire_time)
     = Ok None.
Proof.
  repeat split.
  - unfold passwordResetToken. apply generateToken_gate.
    cbn. apply orb_true_r.
  - apply generateToken_gate. cbn. apply orb_true_r.
Qed.

End Gate.

(** ** The signature check *)

Lemma unpackToken_empty : unpackToken (Buffer_alloc 0) = Throw RangeError.
Proof. reflexivity. Qed.

Section Signature.
Context {crypto : Crypto}.

(** C3. On a signature mismatch [decryptToken] returns the empty buffer:
    for every long-format token whose AES decryption succeeds and whose
    recomputed HMAC-SHA1 differs from the 20 bytes at offset 0x82, the
    result is [Buffer.alloc(0)], a value of the type of a successful
    decode; [unpackToken] raises a range error on it; and the successful
    decode of the token that carries the empty plaintext with its right
    signature is the same empty buffer. *)
Theorem signature_mismatch_returns_empty_buffer (keys : ServiceKeys)
    (ek sig body key plain : Buffer) (b1 b2 : byte) (decipher : Cipher) :
  CryptoLaws crypto ->
  length ek = 128%nat -> length sig = 20%nat ->
  let iv := derive_iv ek (as_int8 (b2z b1)) (as_int8 (b2z b2)) in
  let token := (ek ++ [b1; b2]) ++ sig ++ body in
  let genuine_empty :=
    (ek ++ [b1; b2]) ++ hmac_sha1 (secret_key keys) []
      ++ aes128_cbc_encrypt key iv [] in
  rsa_oaep_decrypt (private_key keys) ek = Some key ->
  createDecipheriv key iv = Ok decipher ->
  decipher_update_final decipher body = Ok plain ->
  sig <> hmac_sha1 (secret_key keys) plain ->
  decryptToken keys token = Ok (Buffer_alloc 0)
  /\ decodeBytes keys token = Throw RangeError
  /\ decryptToken keys genuine_empty = Ok (Buffer_alloc 0).
Proof.
  intros laws Hek Hsig iv token genuine_empty Hrsa Hci Hdec Hneq.
  assert (Hbad : decryptToken keys token = Ok (Buffer_alloc 0)).
  { unfold token. rewrite decryptToken_long by assumption.
    rewrite Hrsa. cbn [bind]. fold iv. rewrite Hci. cbn [bind].
    rewrite Hdec. cbn [bind].
    rewrite Buffer_equals_neq by assumption. reflexivity. }
  split; [exact Hbad|]. split.
  - unfold decodeBytes. rewrite Hbad. reflexivity.
  - unfold genuine_empty.
    rewrite decryptToken_long
      by (assumption || apply (hmac_sha1_length _ laws)).
    rewrite Hrsa. cbn [bind]. fold iv. rewrite Hci. cbn [bind].
    apply createCipheriv_inv in Hci. destruct Hci as (Hk & Hi & ->).
    rewrite (decipher_cipher laws) by assumption. cbn [bind].
    rewrite Buffer_equals_refl. reflexivity.
Qed.

End Signature.

Lemma signature_mismatch_returns_empty_buffer_witness :
  @decryptToken xor_crypto mismatched_keys sample_long_token
  = Ok (Buffer_alloc 0)
  /\ @decodeBytes xor_crypto mismatched_keys sample_long_token
     = Throw RangeError
  /\ @decryptToken xor_crypto mismatched_keys
       ((firstn 128 sample_long_token ++ [x77; x29])
          ++ @hmac_sha1 xor_crypto (secret_key mismatched_keys) []
          ++ @aes128_cbc_encrypt xor_crypto (randomBytes16 sample_entropy)
               (derive_iv (firstn 128 sample_long_token) 119 41) [])
     = Ok (Buffer_alloc 0).
Proof.
  apply (@signature_mismatch_returns_empty_buffer xor_crypto mismatched_keys
           (firstn 128 sample_long_token)
           (firstn 20 (skipn 130 sample_long_token))
           (skipn 150 sample_long_token)
           (randomBytes16 sample_entropy)
           (long_plaintext 0x0F 0x05 100000 3 0x0005000010101000
              1700000000000)
           x77 x29
           {| cipher_key := randomBytes16 sample_entropy;
              cipher_iv := derive_iv (firstn 128 sample_long_token) 119 41 |}
           xor_crypto_laws);
    try (vm_compute; reflexivity).
  vm_compute. discriminate.
Defined.

(** ** Tampering *)


Lemma flip_bit_app_l (a b : Buffer) (i : nat) (j : Z) :
  (i < length a)%nat -> flip_bit (a ++ b) i j = flip_bit a i j ++ b.
Proof.
  intros H. unfold flip_bit.
  rewrite firstn_app, skipn_app.
  replace (i - length a)%nat with 0%nat by lia. cbn [firstn skipn].
  rewrite app_nil_r, <- app_assoc. f_equal.
  destruct (skipn i a) as [|x r] eqn:E; [|reflexivity].
  apply (f_equal (@length byte)) in E. rewrite length_skipn in E.
  cbn [length] in E. lia.
Qed.

Lemma flip_bit_app_r (a b : Buffer) (i : nat) (j : Z) :
  (length a <= i)%nat ->
  flip_bit (a ++ b) i j = a ++ flip_bit b (i - length a) j.
Proof.
  intros H. unfold flip_bit.
  rewrite firstn_app, skipn_app, firstn_all2, skipn_all2 by lia.
  cbn [app]. rewrite <- app_assoc. reflexivity.
Qed.

Lemma z2b_bit_nonzero (j : Z) : 0 <= j < 8 -> z2b (2 ^ j) <> x00.
Proof.
  intros H E. remember (Z.to_nat j) as k eqn:Ek.
  assert (Hk : (k < 8)%nat) by lia.
  replace j with (Z.of_nat k) in E by lia. clear - Hk E.
  do 8 (destruct k as [|k]; [discriminate E|]). lia.
Qed.

Lemma flip_bit_neq (buf : Buffer) (i : nat) (j : Z) :
  (i < length buf)%nat -> 0 <= j < 8 -> flip_bit buf i j <> buf.
Proof.
  intros Hi Hj E. unfold flip_bit in E.
  rewrite <- (firstn_skipn i buf) in E at 3.
  apply app_inv_head in E.
  destruct (skipn i buf) as [|x r] eqn:Es.
  - apply (f_equal (@length byte)) in Es. rewrite length_skipn in Es.
    cbn [length] in Es. lia.
  - injection E as E. apply byte_xor_fixed in E.
    exact (z2b_bit_nonzero j Hj E).
Qed.


Section Tamper.
Context {crypto : Crypto}.


End Tamper.

(** ** A flipped padding byte *)





Section PaddingByte.
Context {crypto : Crypto} (laws : CryptoLaws crypto).


End PaddingByte.

Section FlippedPadding.
Context {crypto : Crypto}.


End FlippedPadding.



(** ** What the decoding side can do *)

Lemma read_uint_Ok (n : nat) (buf : Buffer) (off : nat) (v : Z) :
  read_uint n buf off = Ok v -> (off + n <= length buf)%nat.
Proof.
  unfold read_uint, read_at, in_bounds.
  destruct (Nat.leb_spec (off + n) (length buf)); [auto|discriminate].
Qed.

Lemma read_uint_short (n : nat) (buf : Buffer) (off : nat) :
  (length buf < off + n)%nat -> read_uint n buf off = Throw RangeError.
Proof.
  intros H. unfold read_uint. rewrite read_at_short by assumption.
  reflexivity.
Qed.

Lemma subarray_inside_clamped (buf : Buffer) (e : Z) :
  0 <= e ->
  subarray buf 0 e
  = firstn (Z.to_nat (Z.min e (Z.of_nat (length buf)) - 0))
      (skipn (Z.to_nat 0) buf).
Proof.
  intros H. unfold subarray, clamp_index.
  destruct (Z.ltb_spec e 0); [lia|].
  destruct (Z.ltb_spec 0 0); [lia|].
  rewrite (Z.min_l 0) by lia. reflexivity.
Qed.

Lemma subarray_all (buf : Buffer) (e : Z) :
  Z.of_nat (length buf) <= e -> subarray buf 0 e = buf.
Proof.
  intros H. rewrite subarray_inside_clamped by lia.
  rewrite Z.min_r by lia.
  rewrite Z.sub_0_r, Nat2Z.id. cbn [Z.to_nat skipn]. apply firstn_all.
Qed.

Lemma unpackToken_Ok (body : Buffer) (T : Token) :
  unpackToken body = Ok T -> (length body = 14 \/ 23 <= length body)%nat.
Proof.
  unfold unpackToken, readUInt8, readUInt32LE, readBigUInt64LE.
  destruct (Nat.leb_spec (length body) 14) as [Hle|Hgt]; intros H.
  - do 3 (apply bind_Ok in H; destruct H as (? & _ & H)).
    apply bind_Ok in H. destruct H as (? & Hr & _).
    apply read_uint_Ok in Hr. lia.
  - do 5 (apply bind_Ok in H; destruct H as (? & _ & H)).
    apply bind_Ok in H. destruct H as (? & Hr & _).
    apply read_uint_Ok in Hr. lia.
Qed.

Section Decode.
Context {crypto : Crypto}.

(** C7. What the decode pipeline does on an arbitrary byte string: it
    returns recovered fields or raises an exception.  When it returns
    fields, [decryptToken] returned a body of exactly 14 or of at least 23
    bytes and every field was read inside it.  A long-format input shorter
    than 0x82 bytes raises a range error, and a short-format input that is
    empty or not a whole number of cipher blocks raises a cipher error. *)
Theorem decode_returns_or_raises (keys : ServiceKeys) (token : Buffer) :
  (forall T, decodeBytes keys token = Ok T ->
     exists body,
       decryptToken keys token = Ok body /\ unpackToken body = Ok T
       /\ (length body = 14 \/ 23 <= length body)%nat)
  /\ ((32 < length token < 0x82)%nat ->
      decodeBytes keys token = Throw RangeError)
  /\ ((length token <= 32)%nat ->
      (length token = 0 \/ length token mod 16 <> 0)%nat ->
      decodeBytes keys token = Throw ERR_CRYPTO_INVALID_KEYLEN
      \/ decodeBytes keys token = Throw ERR_OSSL_WRONG_FINAL_BLOCK_LENGTH).
Proof.
  split; [|split].
  - intros T H. unfold decodeBytes in H.
    apply bind_Ok in H. destruct H as (body & Hd & Hu).
    exists body. split; [exact Hd|]. split; [exact Hu|].
    apply (unpackToken_Ok body T Hu).
  - intros [Hlo Hhi]. unfold decodeBytes, decryptToken.
    destruct (Nat.leb_spec (length token) 32); [lia|].
    rewrite (subarray_all token 0x82) by lia.
    unfold readInt8.
    destruct (Nat.lt_ge_cases (length token) (0x80 + 1)) as [Hs|Hs].
    + rewrite (read_uint_short 1 token 0x80) by exact Hs. reflexivity.
    + destruct (read_uint 1 token 0x80) as [v|e] eqn:E.
      * cbn [bind].
        rewrite (read_uint_short 1 token 0x81) by (cbn; lia). reflexivity.
      * unfold read_uint, read_at, in_bounds in E.
        destruct (Nat.leb_spec (0x80 + 1) (length token)); [|lia].
        discriminate E.
  - intros Hle Hbad. unfold decodeBytes, decryptToken.
    destruct (Nat.leb_spec (length token) 32); [|lia].
    unfold createDecipheriv, createCipheriv.
    cbn [Buffer_alloc repeat length Nat.eqb negb].
    destruct (Nat.eqb_spec (length (aes_key keys)) 16); cbn [negb bind];
      [|left; reflexivity].
    right. unfold decipher_update_final.
    destruct Hbad as [H0|Hm].
    + rewrite H0. reflexivity.
    + destruct (Nat.eqb_spec (length token mod 16) 0); [contradiction|].
      rewrite orb_true_r. reflexivity.
Qed.

End Decode.

Lemma decode_returns_or_raises_witness :
  @decodeBytes xor_crypto sample_keys (repeat x00 33) = Throw RangeError.
Proof.
  apply (@decode_returns_or_raises xor_crypto sample_keys (repeat x00 33)).
  cbn. lia.
Defined.

(** The claim of C7 fails on a token of 33 zero bytes: it is longer than 32
    bytes, so [decryptToken] takes the long path and [readInt8(0x80)] reads
    past its end; the range error is raised before any key is used. *)
Lemma decode_raises_on_33_bytes :
  @decodeBytes xor_crypto sample_keys (repeat x00 33) = Throw RangeError
  /\ ~ (exists T, @decodeBytes xor_crypto sample_keys (repeat x00 33) = Ok T).
Proof.
  split; [reflexivity|]. intros [T H]. discriminate H.
Qed.

(** ** What [unpackToken] accepts and returns *)

Lemma read_uint_in (n : nat) (buf : Buffer) (off : nat) :
  (off + n <= length buf)%nat ->
  read_uint n buf off = Ok (le_value (firstn n (skipn off buf))).
Proof.
  intros H. unfold read_uint, read_at, in_bounds.
  destruct (Nat.leb_spec (off + n) (length buf)); [reflexivity|lia].
Qed.

Lemma le_value_range (bs : Buffer) :
  0 <= le_value bs < 256 ^ Z.of_nat (length bs).
Proof.
  induction bs as [|b bs IH]; [cbn; lia|].
  cbn [le_value length]. rewrite Nat2Z.inj_succ, Z.pow_succ_r by lia.
  pose proof (b2z_range b). lia.
Qed.

Lemma le_bytes_le_value (bs : Buffer) :
  le_bytes (length bs) (le_value bs) = bs.
Proof.
  induction bs as [|b bs IH]; [reflexivity|].
  cbn [le_value length le_bytes]. pose proof (b2z_range b) as Hb.
  assert (Ed : (b2z b + 256 * le_value bs) / 256 = le_value bs)
    by (Z.div_mod_to_equations; lia).
  assert (Em : (b2z b + 256 * le_value bs) mod 256 = b2z b)
    by (Z.div_mod_to_equations; lia).
  rewrite Ed, IH. f_equal.
  apply b2z_inj. rewrite b2z_z2b_mod. exact Em.
Qed.

(** X2. [unpackToken] returns a field set exactly on a buffer of 14 bytes
    or of at least 23 bytes; on every other buffer (fewer than 14 bytes, or
    15 to 22 bytes) it raises a range error. *)
Theorem unpackToken_returns_iff (body : Buffer) :
  ((length body = 14 \/ 23 <= length body)%nat ->
   exists T, unpackToken body = Ok T)
  /\ (~ (length body = 14 \/ 23 <= length body)%nat ->
      unpackToken body = Throw RangeError).
Proof.
  unfold unpackToken, readUInt8, readUInt32LE, readBigUInt64LE. split.
  - intros H. destruct (Nat.leb_spec (length body) 14).
    + rewrite !read_uint_in by lia. cbn [bind]. eexists. reflexivity.
    + rewrite !read_uint_in by lia. cbn [bind]. eexists. reflexivity.
  - intros H. destruct (Nat.leb_spec (length body) 14).
    + repeat match goal with
      | |- bind (read_uint ?n body ?off) _ = _ =>
        destruct (Nat.le_gt_cases (off + n) (length body));
          [rewrite (read_uint_in n body off) by assumption; cbn [bind]
          |rewrite (read_uint_short n body off) by assumption; reflexivity]
      end.
      cbn in *. lia.
    + repeat match goal with
      | |- bind (read_uint ?n body ?off) _ = _ =>
        destruct (Nat.le_gt_cases (off + n) (length body));
          [rewrite (read_uint_in n body off) by assumption; cbn [bind]
          |rewrite (read_uint_short n body off) by assumption; reflexivity]
      end.
      cbn in *. lia.
Qed.

Lemma z2b_le_value_one (b : byte) : z2b (le_value [b]) = b.
Proof.
  cbn [le_value]. rewrite Z.mul_0_r, Z.add_0_r. apply z2b_b2z.
Qed.

Lemma Ok_inj {A : Type} (a b : A) : Ok a = Ok b -> a = b.
Proof. intros H. injection H as H. exact H. Qed.

Ltac range_of bs :=
  let H := fresh "Hr" in
  pose proof (le_value_range bs) as H;
  cbn [length] in H;
  match type of H with
  | context [256 ^ Z.of_nat ?n] =>
    let v := eval vm_compute in (256 ^ Z.of_nat n) in
    change (256 ^ Z.of_nat n) with v in H
  end.

(** X3. The fields [unpackToken] returns always fit the widths the writers
    of [generateToken] check, and they carry the bytes they were read from:
    from a 14-byte buffer, packing the four fields again gives the buffer;
    from a longer buffer, packing the six fields again gives its first 23
    bytes, whatever follows them. *)
Theorem unpackToken_fields (body : Buffer) (T : Token) :
  unpackToken body = Ok T ->
  fields_in_range T
  /\ ((length body <= 14)%nat ->
      access_level T = None /\ title_id T = None
      /\ short_plaintext (system_type T) (token_type T) (pid T)
           (expire_time T) = body)
  /\ ((14 < length body)%nat ->
      exists al tid,
        access_level T = Some al /\ title_id T = Some tid
        /\ 0 <= al < 256 /\ 0 <= tid < 2 ^ 64
        /\ long_plaintext (system_type T) (token_type T) (pid T) al tid
             (expire_time T) = firstn 23 body).
Proof.
  intros H. pose proof (unpackToken_Ok body T H) as Hlen.
  unfold unpackToken, readUInt8, readUInt32LE, readBigUInt64LE in H.
  destruct (Nat.leb_spec (length body) 14) as [Hle|Hgt].
  - assert (H14 : length body = 14%nat) by lia. clear Hlen Hle.
    do 14 (destruct body as [|? body]; [discriminate H14|]).
    destruct body; [|discriminate H14]. clear H14.
    rewrite !read_uint_in in H by (cbn [length]; lia).
    cbn [bind firstn skipn] in H. apply Ok_inj in H. subst T.
    unfold fields_in_range, short_plaintext.
    cbv beta iota delta [system_type token_type pid expire_time access_level
                         title_id].
    change (2 ^ 32) with 4294967296.
    change (2 ^ 64) with 18446744073709551616.
    range_of [b]. range_of [b0]. range_of [b1; b2; b3; b4].
    range_of [b5; b6; b7; b8; b9; b10; b11; b12].
    split; [lia|]. split; [|cbn [length]; lia].
    intros _. split; [reflexivity|]. split; [reflexivity|].
    rewrite !z2b_le_value_one.
    rewrite (le_bytes_le_value [b1; b2; b3; b4]
             : le_bytes 4 _ = _).
    rewrite (le_bytes_le_value [b5; b6; b7; b8; b9; b10; b11; b12]
             : le_bytes 8 _ = _).
    reflexivity.
  - assert (H23 : (23 <= length body)%nat) by lia. clear Hlen Hgt.
    do 23 (destruct body as [|? body]; [cbn [length] in H23; lia|]).
    clear H23.
    rewrite !read_uint_in in H by (cbn [length]; lia).
    cbn [bind firstn skipn] in H. apply Ok_inj in H. subst T.
    unfold fields_in_range, long_plaintext.
    cbv beta iota delta [system_type token_type pid expire_time access_level
                         title_id].
    change (2 ^ 32) with 4294967296.
    change (2 ^ 64) with 18446744073709551616.
    range_of [b]. range_of [b0]. range_of [b1; b2; b3; b4]. range_of [b5].
    range_of [b6; b7; b8; b9; b10; b11; b12; b13].
    range_of [b14; b15; b16; b17; b18; b19; b20; b21].
    split; [lia|]. split; [cbn [length]; lia|].
    intros _. eexists _, _. split; [reflexivity|]. split; [reflexivity|].
    split; [lia|]. split; [lia|].
    rewrite !z2b_le_value_one.
    rewrite (le_bytes_le_value [b1; b2; b3; b4]
             : le_bytes 4 _ = _).
    rewrite (le_bytes_le_value [b6; b7; b8; b9; b10; b11; b12; b13]
             : le_bytes 8 _ = _).
    rewrite (le_bytes_le_value [b14; b15; b16; b17; b18; b19; b20; b21]
             : le_bytes 8 _ = _).
    reflexivity.
Qed.

Lemma unpackToken_fields_witness :
  fields_in_range sample_long_fields
  /\ ((length (long_plaintext 0x0F 0x05 100000 3 0x0005000010101000
                 1700000000000 ++ [xaa; xbb]) <= 14)%nat ->
      access_level sample_long_fields = None
      /\ title_id sample_long_fields = None
      /\ short_plaintext (system_type sample_long_fields)
           (token_type sample_long_fields) (pid sample_long_fields)
           (expire_time sample_long_fields)
         = long_plaintext 0x0F 0x05 100000 3 0x0005000010101000
             1700000000000 ++ [xaa; xbb])
  /\ ((14 < length (long_plaintext 0x0F 0x05 100000 3 0x0005000010101000
                      1700000000000 ++ [xaa; xbb]))%nat ->
      exists al tid,
        access_level sample_long_fields = Some al
        /\ title_id sample_long_fields = Some tid
        /\ 0 <= al < 256 /\ 0 <= tid < 2 ^ 64
        /\ long_plaintext (system_type sample_long_fields)
             (token_type sample_long_fields) (pid sample_long_fields) al tid
             (expire_time sample_long_fields)
           = firstn 23
               (long_plaintext 0x0F 0x05 100000 3 0x0005000010101000
                  1700000000000 ++ [xaa; xbb])).
Proof.
  apply (unpackToken_fields
           (long_plaintext 0x0F 0x05 100000 3 0x0005000010101000
              1700000000000 ++ [xaa; xbb])
           sample_long_fields).
  vm_compute. reflexivity.
Defined.

(** ** How [generateToken] fails on the short path *)

Lemma write_uint_out_of_range (n : nat) (buf : Buffer) (v : Z) (off : nat) :
  ~ 0 <= v < 256 ^ Z.of_nat n -> write_uint n buf v off = Throw RangeError.
Proof.
  intros H. unfold write_uint.
  destruct (Z.leb_spec 0 v); [|reflexivity].
  destruct (Z.ltb_spec v (256 ^ Z.of_nat n)); [lia|reflexivity].
Qed.

Ltac write_or_raise v n :=
  let Hin := fresh "Hin" in
  destruct (Z_le_dec 0 v) as [?|?];
    [destruct (Z_lt_dec v (256 ^ Z.of_nat n)) as [?|?]|];
    [write_step
    |rewrite write_uint_out_of_range by lia; reflexivity
    |rewrite write_uint_out_of_range by lia; reflexivity].

Lemma fields_in_range_dec (F : TokenOptions) :
  fields_in_range F \/ ~ fields_in_range F.
Proof.
  unfold fields_in_range.
  destruct (Z_le_dec 0 (system_type F)), (Z_lt_dec (system_type F) 256),
    (Z_le_dec 0 (token_type F)), (Z_lt_dec (token_type F) 256),
    (Z_le_dec 0 (pid F)), (Z_lt_dec (pid F) (2 ^ 32)),
    (Z_le_dec 0 (expire_time F)), (Z_lt_dec (expire_time F) (2 ^ 64));
    try (left; repeat split; assumption); right; intros Hc; tauto.
Qed.

Section ShortErrors.
Context {crypto : Crypto}.




End ShortErrors.

(** ** The short path accepts long plaintexts *)

Section Confusion.
Context {crypto : Crypto}.

(** X5. The short path of [decryptToken] checks no signature, and
    [unpackToken] chooses the layout by the length of the plaintext alone:
    the AES-128-CBC encryption of a 23-byte long plaintext under the service
    AES key and the all-zero IV is a 32-byte token that the decode returns
    as a long field set, with its [access_level] and [title_id], without any
    RSA key or HMAC secret being used. *)
Theorem short_path_decodes_long_fields (keys : ServiceKeys)
    (system_type token_type pid access_level title_id expire_time : Z) :
  CryptoLaws crypto -> length (aes_key keys) = 16%nat ->
  0 <= system_type < 256 -> 0 <= token_type < 256 ->
  0 <= pid < 2 ^ 32 -> 0 <= access_level < 256 ->
  0 <= title_id < 2 ^ 64 -> 0 <= expire_time < 2 ^ 64 ->
  let token :=
    aes128_cbc_encrypt (aes_key keys) (repeat x00 16)
      (long_plaintext system_type token_type pid access_level title_id
         expire_time) in
  length token = 32%nat
  /\ forall private secret,
       decodeBytes {| aes_key := aes_key keys; private_key := private;
                      secret_key := secret |} token
       = Ok (long_fields system_type token_type pid access_level title_id
               expire_time).
Proof.
  intros laws Hk H1 H2 H3 H4 H5 H6 token.
  assert (Hlen : length token = 32%nat)
    by (unfold token;
        rewrite (length_aes128_cbc_encrypt laws) by (assumption || reflexivity);
        reflexivity).
  split; [exact Hlen|]. intros private secret.
  unfold decodeBytes, decryptToken. rewrite Hlen. cbn [Nat.leb aes_key].
  unfold createDecipheriv.
  rewrite createCipheriv_ok by (assumption || reflexivity). cbn [bind].
  unfold token. change (repeat x00 16) with (Buffer_alloc 16).
  rewrite (decipher_cipher laws) by (assumption || reflexivity).
  cbn [bind]. apply unpack_long; assumption.
Qed.

End Confusion.

Lemma short_path_decodes_long_fields_witness :
  let token :=
    @aes128_cbc_encrypt xor_crypto (aes_key sample_keys) (repeat x00 16)
      (long_plaintext 0x0F 0x05 100000 3 0x0005000010101000 1700000000000) in
  length token = 32%nat
  /\ forall private secret,
       @decodeBytes xor_crypto
         {| aes_key := aes_key sample_keys; private_key := private;
            secret_key := secret |} token
       = Ok (long_fields 0x0F 0x05 100000 3 0x0005000010101000
               1700000000000).
Proof.
  apply (@short_path_decodes_long_fields xor_crypto sample_keys
           0x0F 0x05 100000 3 0x0005000010101000 1700000000000
           xor_crypto_laws);
    solve [reflexivity | lia].
Defined.

(** ** The two point bytes *)

Lemma as_int8_top_bit (p : Z) :
  0 <= p < 128 -> as_int8 (b2z (byte_xor (z2b p) (z2b (2 ^ 7)))) = p - 128.
Proof.
  intros H. remember (Z.to_nat p) as k eqn:Ek.
  assert (Hk : (k < 128)%nat) by lia.
  replace p with (Z.of_nat k) by lia. clear - Hk.
  do 128 (destruct k as [|k]; [reflexivity|]). lia.
Qed.

Lemma subarray_wrap (buf : Buffer) (p : Z) :
  length buf = 128%nat -> 0 <= p < 120 ->
  subarray buf (p - 128) (p - 128 + 8) = subarray buf p (p + 8).
Proof.
  intros Hl Hp. unfold subarray, clamp_index. rewrite Hl.
  destruct (Z.ltb_spec (p - 128) 0); [|lia].
  destruct (Z.ltb_spec (p - 128 + 8) 0); [|lia].
  destruct (Z.ltb_spec p 0); [lia|].
  destruct (Z.ltb_spec (p + 8) 0); [lia|].
  replace (Z.max (Z.of_nat 128 + (p - 128)) 0) with p by lia.
  replace (Z.max (Z.of_nat 128 + (p - 128 + 8)) 0) with (p + 8) by lia.
  replace (Z.min p (Z.of_nat 128)) with p by lia.
  replace (Z.min (p + 8) (Z.of_nat 128)) with (p + 8) by lia.
  reflexivity.
Qed.

Lemma length_subarray_window_le (buf : Buffer) (p : Z) :
  (length (subarray buf p (p + 8)) <= 8)%nat.
Proof.
  unfold subarray, clamp_index. rewrite length_firstn.
  destruct (Z.ltb_spec p 0), (Z.ltb_spec (p + 8) 0); lia.
Qed.

Lemma length_subarray_window_cut (buf : Buffer) (p : Z) :
  length buf = 128%nat -> 120 < p \/ -8 <= p < 0 ->
  (length (subarray buf p (p + 8)) < 8)%nat.
Proof.
  intros Hl Hp. unfold subarray, clamp_index.
  rewrite length_firstn, length_skipn, Hl.
  destruct (Z.ltb_spec p 0), (Z.ltb_spec (p + 8) 0); lia.
Qed.

Section Points.
Context {crypto : Crypto}.

(** X6. The two point bytes of a long token are read as signed bytes and a
    negative point counts from the end of the 128-byte RSA ciphertext, so a
    point byte [p + 128] selects the same 8-byte window as [p]: flipping the
    top bit of the byte at offset 0x80 or 0x81 of a token that
    [generateToken] returned gives another token that decodes to the same
    field set. *)
Theorem point_top_bit_ignored (keys : ServiceKeys) (rnd : Entropy)
    (co : CryptoOptions) (F : TokenOptions) (wire : JSString) (i : nat) :
  CryptoLaws crypto ->
  rsa1024_key_pair crypto (public_key co) (private_key keys) ->
  secret_key keys = hmac_secret co ->
  entropy_ok rnd ->
  generateToken keys rnd (Some co) F = Ok (Some wire) ->
  i = 0x80%nat \/ i = 0x81%nat ->
  flip_bit (Buffer_from_base64 wire) i 7 <> Buffer_from_base64 wire
  /\ decodeBytes keys (flip_bit (Buffer_from_base64 wire) i 7) = Ok F.
Proof.
  intros laws Hpair Hsecret Hrnd Hgen Hi.
  destruct (Hpair (oaep_seed rnd) (randomBytes16 rnd) (proj1 Hrnd))
    as [Hek Hrsa].
  destruct (generateToken_long_inv keys rnd co F wire Hgen)
    as (al & tid & Ea & Et & Hal & Htid & HF & Hal' & Htid').
  destruct (generateToken_long_wire keys rnd co F al tid Hek Hrnd Ea Et
              Hal Htid HF Hal' Htid')
    as ((Hp1 & Hp2) & Hiv & Hgen').
  rewrite Hgen in Hgen'. injection Hgen' as ->.
  rewrite Buffer_from_base64_toString.
  set (ek := rsa_oaep_encrypt (public_key co) (oaep_seed rnd)
               (randomBytes16 rnd)) in *.
  set (p1 := random_point 120 (random1 rnd)) in *.
  set (p2 := random_point 120 (random2 rnd)) in *.
  set (plain := long_plaintext (system_type F) (token_type F) (pid F) al tid
                  (expire_time F)) in *.
  set (sig := hmac_sha1 (hmac_secret co) plain).
  set (body := aes128_cbc_encrypt (randomBytes16 rnd) (derive_iv ek p1 p2)
                 plain).
  assert (Hsig : length sig = 20%nat) by apply (hmac_sha1_length _ laws).
  assert (Hcfg : length (ek ++ [z2b p1; z2b p2]) = 130%nat)
    by (rewrite length_app, Hek; reflexivity).
  assert (HFeq : long_fields (system_type F) (token_type F) (pid F) al tid
                   (expire_time F) = F).
  { destruct F. cbn in Ea, Et. subst. reflexivity. }
  split.
  { apply flip_bit_neq; [|lia].
    rewrite !length_app, Hek. cbn [length]. destruct Hi; subst i; lia. }
  assert (Hflip : exists b1 b2,
            flip_bit ((ek ++ [z2b p1; z2b p2]) ++ sig ++ body) i 7
            = (ek ++ [b1; b2]) ++ sig ++ body
            /\ derive_iv ek (as_int8 (b2z b1)) (as_int8 (b2z b2))
               = derive_iv ek p1 p2).
  { destruct Hi as [->| ->].
    - exists (byte_xor (z2b p1) (z2b (2 ^ 7))), (z2b p2). split.
      + rewrite flip_bit_app_l by (rewrite Hcfg; cbn; lia).
        rewrite flip_bit_app_r by (rewrite Hek; cbn; lia).
        rewrite Hek. reflexivity.
      + rewrite as_int8_top_bit, as_int8_small by lia.
        unfold derive_iv. rewrite subarray_wrap by assumption. reflexivity.
    - exists (z2b p1), (byte_xor (z2b p2) (z2b (2 ^ 7))). split.
      + rewrite flip_bit_app_l by (rewrite Hcfg; cbn; lia).
        rewrite flip_bit_app_r by (rewrite Hek; cbn; lia).
        rewrite Hek. reflexivity.
      + rewrite as_int8_top_bit, as_int8_small by lia.
        unfold derive_iv. rewrite subarray_wrap by assumption. reflexivity. }
  destruct Hflip as (b1 & b2 & -> & Ediv).
  unfold decodeBytes. rewrite decryptToken_long by assumption.
  rewrite Ediv, Hrsa. cbn [bind]. unfold createDecipheriv.
  rewrite createCipheriv_ok by (assumption || apply Hrnd). cbn [bind].
  unfold body. rewrite (decipher_cipher laws) by (assumption || apply Hrnd).
  cbn [bind]. rewrite Hsecret. fold plain sig.
  rewrite Buffer_equals_refl. cbn [negb bind].
  transitivity (Ok (long_fields (system_type F) (token_type F) (pid F) al tid
                      (expire_time F)));
    [|rewrite HFeq; reflexivity].
  apply unpack_long; try apply HF; assumption.
Qed.

(** X7. A point byte whose signed value is above 120 or between -8 and -1
    leaves less than 8 bytes in its window of the 128-byte RSA ciphertext,
    so the IV has less than 16 bytes: a long token with such a byte at
    offset 0x80 or 0x81 never decodes; [decryptToken] raises the RSA
    decryption error or the invalid-IV error. *)
Theorem bad_point_never_decodes (keys : ServiceKeys) (ek sig body : Buffer)
    (b1 b2 : byte) :
  length ek = 128%nat -> length sig = 20%nat ->
  let p1 := as_int8 (b2z b1) in
  let p2 := as_int8 (b2z b2) in
  120 < p1 \/ -8 <= p1 < 0 \/ 120 < p2 \/ -8 <= p2 < 0 ->
  decryptToken keys ((ek ++ [b1; b2]) ++ sig ++ body) = Throw ERR_RSA_DECRYPT
  \/ decryptToken keys ((ek ++ [b1; b2]) ++ sig ++ body)
     = Throw ERR_CRYPTO_INVALID_IV.
Proof.
  intros Hek Hsig p1 p2 Hbad.
  rewrite decryptToken_long by assumption. fold p1 p2.
  destruct (rsa_oaep_decrypt (private_key keys) ek) as [k|];
    [|left; reflexivity].
  right. cbn [bind]. unfold createDecipheriv, createCipheriv.
  assert (Hiv : length (derive_iv ek p1 p2) <> 16%nat).
  { unfold derive_iv. rewrite length_app.
    pose proof (length_subarray_window_le ek p1).
    pose proof (length_subarray_window_le ek p2).
    destruct Hbad as [H'|[H'|[H'|H']]].
    - pose proof (length_subarray_window_cut ek p1 Hek (or_introl H')). lia.
    - pose proof (length_subarray_window_cut ek p1 Hek (or_intror H')). lia.
    - pose proof (length_subarray_window_cut ek p2 Hek (or_introl H')). lia.
    - pose proof (length_subarray_window_cut ek p2 Hek (or_intror H')). lia. }
  destruct (Nat.eqb_spec (length (derive_iv ek p1 p2)) 16); [contradiction|].
  reflexivity.
Qed.

End Points.

Lemma point_top_bit_ignored_witness :
  flip_bit (Buffer_from_base64 sample_long_wire) 0x80 7
  <> Buffer_from_base64 sample_long_wire
  /\ @decodeBytes xor_crypto sample_keys
       (flip_bit (Buffer_from_base64 sample_long_wire) 0x80 7)
     = Ok sample_long_fields.
Proof.
  apply (@point_top_bit_ignored xor_crypto sample_keys sample_entropy
           sample_crypto_options sample_long_fields sample_long_wire 0x80
           xor_crypto_laws (xor_crypto_key_pair _ _) eq_refl
           sample_entropy_ok).
  - vm_compute. reflexivity.
  - left. reflexivity.
Defined.

Lemma bad_point_never_decodes_witness :
  @decryptToken xor_crypto sample_keys
    ((firstn 128 sample_long_token ++ [x7f; x29])
       ++ firstn 20 (skipn 130 sample_long_token)
       ++ skipn 150 sample_long_token)
  = Throw ERR_RSA_DECRYPT
  \/ @decryptToken xor_crypto sample_keys
       ((firstn 128 sample_long_token ++ [x7f; x29])
          ++ firstn 20 (skipn 130 sample_long_token)
          ++ skipn 150 sample_long_token)
     = Throw ERR_CRYPTO_INVALID_IV.
Proof.
  apply (@bad_point_never_decodes xor_crypto sample_keys
           (firstn 128 sample_long_token)
           (firstn 20 (skipn 130 sample_long_token))
           (skipn 150 sample_long_token) x7f x29).
  - reflexivity.
  - reflexivity.
  - left. vm_compute. reflexivity.
Defined.

(** ** The length of the wire text *)

Lemma length_toString_base64 (b : Buffer) :
  length (toString_base64 b) = (4 * ((length b + 2) / 3))%nat.
Proof.
  induction b as [|x|x y|x y z r IH] using list_ind3; try reflexivity.
  cbn [toString_base64 length]. rewrite IH.
  replace (S (S (S (length r))) + 2)%nat with (1 * 3 + (length r + 2))%nat
    by lia.
  rewrite Nat.div_add_l by lia. lia.
Qed.

Section WireLength.
Context {crypto : Crypto}.

(** X8. The wire text of a produced token: a short token is 24 base64
    characters and, with a 128-byte RSA ciphertext, a long token is 244
    characters, below the 255 characters that the comment of
    [generateToken] gives as the limit of the console. *)
Theorem wire_text_length (keys : ServiceKeys) (rnd : Entropy)
    (co : CryptoOptions) (F : TokenOptions) (wire : JSString) :
  CryptoLaws crypto ->
  length (rsa_oaep_encrypt (public_key co) (oaep_seed rnd)
            (randomBytes16 rnd)) = 128%nat ->
  entropy_ok rnd ->
  (generateToken keys rnd None F = Ok (Some wire) -> length wire = 24%nat)
  /\ (generateToken keys rnd (Some co) F = Ok (Some wire) ->
      length wire = 244%nat /\ (length wire <= 255)%nat).
Proof.
  intros laws Hek Hrnd. split; intros Hgen.
  - destruct (generateToken_short_inv keys rnd F wire Hgen) as [Hk HF].
    rewrite (generateToken_short keys rnd F Hk HF) in Hgen.
    injection Hgen as <-. rewrite length_toString_base64.
    rewrite (length_aes128_cbc_encrypt laws) by (assumption || reflexivity).
    reflexivity.
  - destruct (generateToken_long_inv keys rnd co F wire Hgen)
      as (al & tid & Ea & Et & Hal & Htid & HF & Hal' & Htid').
    destruct (generateToken_long_wire keys rnd co F al tid Hek Hrnd Ea Et
                Hal Htid HF Hal' Htid')
      as (_ & Hiv & Hgen').
    rewrite Hgen in Hgen'. injection Hgen' as ->.
    rewrite length_toString_base64.
    rewrite !length_app, Hek, (hmac_sha1_length _ laws).
    rewrite (length_aes128_cbc_encrypt laws) by (assumption || apply Hrnd).
    cbn [length]. split; [reflexivity|]. apply Nat.leb_le. reflexivity.
Qed.

End WireLength.

Lemma wire_text_length_witness :
  length sample_short_wire = 24%nat
  /\ length sample_long_wire = 244%nat
  /\ (length sample_long_wire <= 255)%nat.
Proof.
  split.
  - apply (@wire_text_length xor_crypto sample_keys sample_entropy
             sample_crypto_options sample_short_fields sample_short_wire
             xor_crypto_laws eq_refl sample_entropy_ok).
    vm_compute. reflexivity.
  - apply (@wire_text_length xor_crypto sample_keys sample_entropy
             sample_crypto_options sample_long_fields sample_long_wire
             xor_crypto_laws eq_refl sample_entropy_ok).
    vm_compute. reflexivity.
Defined.

(* ================================================================= *)
(** * NintendoBase64 texts and password hashes *)

Lemma nintendo_alphabet_char (n : Z) :
  0 <= n < 64 -> nintendo_alphabet (nintendo_subst (base64_char n)) = true.
Proof.
  intros H. unfold nintendo_alphabet, nintendo_subst, base64_char.
  change (chr "A") with 65. change (chr "Z") with 90.
  change (chr "a") with 97. change (chr "z") with 122.
  change (chr "0") with 48. change (chr "9") with 57.
  change (chr "+") with 43. change (chr "/") with 47.
  change (chr "=") with 61. change (chr ".") with 46.
  change (chr "-") with 45. change (chr "*") with 42.
  repeat (destruct_if; try lia); reflexivity.
Qed.

Lemma nintendo_alphabet_pad :
  nintendo_alphabet (nintendo_subst (chr "=")) = true.
Proof. reflexivity. Qed.

Lemma nintendo_alphabet_text (b : Buffer) :
  Forall (fun c => nintendo_alphabet (nintendo_subst c) = true)
    (toString_base64 b).
Proof.
  induction b as [|x|x y|x y z r IH] using list_ind3; cbn [toString_base64].
  - constructor.
  - destruct (sextets_of_bytes x x00 x00) as [[Ha [Hb _]] _].
    change (b2z x00) with 0 in *. rewrite Z.add_0_r in Hb.
    repeat (apply Forall_cons;
            [first [apply nintendo_alphabet_pad
                   | apply nintendo_alphabet_char; assumption]|]).
    apply Forall_nil.
  - destruct (sextets_of_bytes x y x00) as [[Ha [Hb [Hc _]]] _].
    change (b2z x00) with 0 in *. rewrite Z.add_0_r in Hc.
    repeat (apply Forall_cons;
            [first [apply nintendo_alphabet_pad
                   | apply nintendo_alphabet_char; assumption]|]).
    apply Forall_nil.
  - destruct (sextets_of_bytes x y z) as [[Ha [Hb [Hc Hd]]] _].
    repeat (apply Forall_cons; [apply nintendo_alphabet_char; assumption|]).
    exact IH.
Qed.

(** X9. The text [nintendoBase64Encode] returns, for a string or a buffer,
    consists of letters, digits, [.], [-] and [*] only, and has four
    characters for every three bytes of the data, rounded up. *)
Theorem nintendoBase64Encode_text (d : JSString + Buffer) :
  Forall (fun c => nintendo_alphabet c = true) (nintendoBase64Encode d)
  /\ length (nintendoBase64Encode d)
     = (4 * ((length (Buffer_from d) + 2) / 3))%nat.
Proof.
  rewrite nintendoBase64Encode_subst. split.
  - apply Forall_map, nintendo_alphabet_text.
  - rewrite length_map. apply length_toString_base64.
Qed.

Lemma nintendo_unsubst_plain (c : Z) : plain_base64 c -> nintendo_unsubst c = c.
Proof.
  unfold plain_base64, nintendo_unsubst.
  change (chr "+") with 43. change (chr "/") with 47.
  change (chr "=") with 61. change (chr ".") with 46.
  change (chr "-") with 45. change (chr "*") with 42.
  intros (H1 & H2 & H3).
  repeat (destruct_if; try lia).
Qed.

(** X10. The Nintendo text and the standard base64 text of the same data,
    given as a string or as a buffer, both decode to the bytes of the data
    (the UTF-8 bytes, for a string). *)
Theorem nintendoBase64Decode_both_alphabets (d : JSString + Buffer) :
  nintendoBase64Decode (nintendoBase64Encode d) = Buffer_from d
  /\ nintendoBase64Decode (toString_base64 (Buffer_from d)) = Buffer_from d.
Proof.
  rewrite !nintendoBase64Decode_unsubst, nintendoBase64Encode_subst.
  rewrite map_map. split.
  - rewrite (map_ext_Forall _ (fun c => c)).
    + rewrite map_id. apply Buffer_from_base64_toString.
    + eapply Forall_impl; [|apply toString_base64_plain].
      intros c Hc. apply nintendo_unsubst_subst, Hc.
  - rewrite (map_ext_Forall _ (fun c => c)).
    + rewrite map_id. apply Buffer_from_base64_toString.
    + eapply Forall_impl; [|apply toString_base64_plain].
      intros c Hc. apply nintendo_unsubst_plain, Hc.
Qed.

Lemma lowercase_hex_chars (b : Buffer) :
  Forall (fun c => In c lowercase_hex_digits) (lowercase_hex b)
  /\ length (lowercase_hex b) = (2 * length b)%nat.
Proof.
  unfold lowercase_hex. induction b as [|x b [IH1 IH2]].
  - split; [constructor|reflexivity].
  - cbn [flat_map app length]. pose proof (b2z_range x). split.
    + apply Forall_cons; [|apply Forall_cons; [|exact IH1]];
        apply nth_In; change (length lowercase_hex_digits) with 16%nat;
        Z.div_mod_to_equations; lia.
    + rewrite IH2. lia.
Qed.

Section HashOutcomes.
Context {crypto : Crypto}.

(** X11. [nintendoPasswordHash] returns exactly when [pid] fits in 32 bits
    unsigned and raises a RangeError otherwise, whatever the password; what
    it returns is two lowercase hexadecimal digits for each byte of the
    digest. *)
Theorem nintendoPasswordHash_outcomes (password : JSString) (pid : Z) :
  (0 <= pid < 2 ^ 32 ->
   exists h, nintendoPasswordHash password pid = Ok h
     /\ Forall (fun c => In c lowercase_hex_digits) h
     /\ length h
        = (2 * length (sha256 (le_bytes 4 pid ++ [x02; x65; x43; x46]
                                 ++ utf8_encode password)))%nat)
  /\ (~ 0 <= pid < 2 ^ 32 ->
      nintendoPasswordHash password pid = Throw RangeError).
Proof.
  unfold nintendoPasswordHash, writeUInt32LE. split; intros H.
  - rewrite (write_uint_alloc 4)
      by (change (256 ^ Z.of_nat 4) with (2 ^ 32); lia).
    cbn [bind]. rewrite toString_hex_lowercase.
    eexists. split; [reflexivity|]. apply lowercase_hex_chars.
  - rewrite write_uint_out_of_range
      by (change (256 ^ Z.of_nat 4) with (2 ^ 32); exact H).
    reflexivity.
Qed.

End HashOutcomes.
(* ================================================================= *)
(** * Strings and decimal numbers *)

Lemma JSString_eqb_eq (a b : JSString) : JSString_eqb a b = true <-> a = b.
Proof.
  revert b. induction a as [|x a IH]; intros [|y b]; cbn [JSString_eqb];
    try (split; [discriminate|discriminate]); [tauto|].
  rewrite andb_true_iff, Z.eqb_eq, IH. split.
  - intros [-> ->]. reflexivity.
  - intros E. injection E as -> ->. split; reflexivity.
Qed.

Lemma JSString_eqb_refl (a : JSString) : JSString_eqb a a = true.
Proof. apply JSString_eqb_eq. reflexivity. Qed.

Lemma JSString_eqb_neq (a b : JSString) : JSString_eqb a b = false <-> a <> b.
Proof.
  rewrite <- JSString_eqb_eq. destruct (JSString_eqb a b); split;
    congruence.
Qed.

Lemma digits_uint_uint_digits (d : Decimal.uint) :
  digits_uint (uint_digits d) = Some d.
Proof.
  induction d as [|d IH|d IH|d IH|d IH|d IH|d IH|d IH|d IH|d IH|d IH];
    cbn [uint_digits digits_uint]; [reflexivity|..];
    rewrite IH; reflexivity.
Qed.

Lemma uint_digits_ascii (d : Decimal.uint) :
  Forall (fun c => 0 <= c < 128) (uint_digits d).
Proof.
  induction d as [|d IH|d IH|d IH|d IH|d IH|d IH|d IH|d IH|d IH|d IH];
    cbn [uint_digits]; [constructor|..];
    (apply Forall_cons; [cbv; split; congruence|exact IH]).
Qed.

Lemma utf8_encode_ascii (s : JSString) :
  Forall (fun c => 0 <= c < 128) s -> utf8_encode s = map z2b s.
Proof.
  induction 1 as [|c s Hc _ IH]; [reflexivity|].
  cbn [utf8_encode map].
  replace (c <? 128) with true by (symmetry; apply Z.ltb_lt; lia).
  rewrite IH. reflexivity.
Qed.

Lemma parse_decimal_Number_toString (n : Z) :
  0 <= n -> parse_decimal (Number_toString n) = Some n.
Proof.
  intros H. pose proof (DecimalZ.of_to n) as E.
  unfold Number_toString, parse_decimal.
  destruct n as [|p|p]; [reflexivity| |lia].
  cbn [Z.to_int] in *.
  rewrite digits_uint_uint_digits. cbn [option_map].
  destruct (uint_digits (Pos.to_uint p)) eqn:Ed.
  - pose proof (DecimalPos.Unsigned.to_uint_nonnil p) as Hn.
    destruct (Pos.to_uint p); try discriminate; try contradiction.
  - f_equal. exact E.
Qed.

Lemma Number_toString_ascii (n : Z) :
  0 <= n -> Forall (fun c => 0 <= c < 128) (Number_toString n).
Proof.
  intros H. unfold Number_toString.
  destruct n as [|p|p]; [|apply uint_digits_ascii|lia].
  cbn. repeat constructor; lia.
Qed.

Lemma nintendoBase64_decode_encode (d : JSString + Buffer) :
  nintendoBase64Decode (nintendoBase64Encode d) = Buffer_from d.
Proof.
  rewrite nintendoBase64Decode_unsubst, nintendoBase64Encode_subst, map_map.
  rewrite (map_ext_Forall _ (fun c => c)).
  - rewrite map_id. apply Buffer_from_base64_toString.
  - eapply Forall_impl; [|apply toString_base64_plain].
    intros c Hc. apply nintendo_unsubst_subst, Hc.
Qed.

(** X12. [nascError] answers with the three fields retry, returncd and
    datetime, in this order.  Decoded from NintendoBase64, retry is the
    character 1 and datetime is the decimal digits of the current time in
    milliseconds; returncd decodes to the UTF-8 bytes of the error code,
    unless the error code is the text null, which is sent as it is and
    decodes to three bytes that are not that text. *)
Theorem nascError_fields (now : Z) (errorCode : JSString) :
  0 <= now ->
  let p := nascError now errorCode in
  map fst p = [str "retry"; str "returncd"; str "datetime"]
  /\ option_map nintendoBase64Decode (URLSearchParams_get (str "retry") p)
     = Some [x31]
  /\ (exists digits,
        option_map nintendoBase64Decode
          (URLSearchParams_get (str "datetime") p) = Some (map z2b digits)
        /\ parse_decimal digits = Some now)
  /\ (errorCode <> str "null" ->
      option_map nintendoBase64Decode
        (URLSearchParams_get (str "returncd") p)
      = Some (utf8_encode errorCode))
  /\ (errorCode = str "null" ->
      URLSearchParams_get (str "returncd") p = Some (str "null")
      /\ nintendoBase64Decode (str "null") = [x9e; xe9; x65]).
Proof.
  intros Hnow p. subst p. unfold nascError, URLSearchParams_get.
  cbn [map fst find snd option_map].
  change (JSString_eqb (str "retry") (str "retry")) with true.
  change (JSString_eqb (str "retry") (str "datetime")) with false.
  change (JSString_eqb (str "retry") (str "returncd")) with false.
  change (JSString_eqb (str "returncd") (str "returncd")) with true.
  change (JSString_eqb (str "returncd") (str "datetime")) with false.
  change (JSString_eqb (str "datetime") (str "datetime")) with true.
  cbn [option_map snd].
  split; [reflexivity|]. split; [reflexivity|]. split; [|split].
  - exists (Number_toString now). split.
    + rewrite nintendoBase64_decode_encode. cbn [Buffer_from].
      rewrite utf8_encode_ascii by (apply Number_toString_ascii, Hnow).
      reflexivity.
    + apply parse_decimal_Number_toString, Hnow.
  - intros Hne. apply JSString_eqb_neq in Hne. rewrite Hne.
    rewrite nintendoBase64_decode_encode. reflexivity.
  - intros ->. split; reflexivity.
Qed.

Lemma nascError_fields_witness :
  0 <= 1700000000000
  /\ let p := nascError 1700000000000 (str "109") in
     map fst p = [str "retry"; str "returncd"; str "datetime"]
     /\ option_map nintendoBase64Decode (URLSearchParams_get (str "retry") p)
        = Some [x31]
     /\ (exists digits,
           option_map nintendoBase64Decode
             (URLSearchParams_get (str "datetime") p) = Some (map z2b digits)
           /\ parse_decimal digits = Some 1700000000000)
     /\ (str "109" <> str "null" ->
         option_map nintendoBase64Decode
           (URLSearchParams_get (str "returncd") p)
         = Some (utf8_encode (str "109")))
     /\ (str "109" = str "null" ->
         URLSearchParams_get (str "returncd") p = Some (str "null")
         /\ nintendoBase64Decode (str "null") = [x9e; xe9; x65]).
Proof.
  split; [lia|]. apply (nascError_fields 1700000000000 (str "109")). lia.
Defined.

(* ================================================================= *)
(** * Query strings and headers *)

Lemma own_property_In (o : list (JSString * JSValue)) (key : JSString)
    (v : JSValue) :
  own_property o key = Some v -> In (key, v) o.
Proof.
  unfold own_property. destruct (find _ o) as [[k w]|] eqn:E; [|discriminate].
  apply find_some in E. destruct E as [Hin Hk]. cbn [fst] in Hk.
  apply JSString_eqb_eq in Hk. subst k. cbn. intros H.
  injection H as ->. exact Hin.
Qed.

Lemma own_property_absent (o : list (JSString * JSValue)) (key : JSString) :
  ~ In key (map fst o) -> own_property o key = None.
Proof.
  unfold own_property. induction o as [|[k w] o IH]; [reflexivity|].
  cbn [map fst In find]. intros H.
  destruct (JSString_eqb k key) eqn:E.
  - apply JSString_eqb_eq in E. tauto.
  - apply IH. tauto.
Qed.

Lemma own_property_app (o1 o2 : list (JSString * JSValue)) (key : JSString) :
  own_property (o1 ++ o2) key
  = match own_property o1 key with
    | Some v => Some v
    | None => own_property o2 key
    end.
Proof.
  unfold own_property. induction o1 as [|[k w] o1 IH]; [reflexivity|].
  cbn [app find fst]. destruct (JSString_eqb k key); [reflexivity|exact IH].
Qed.

Lemma all_strings_overwrite (o : list (JSString * JSValue))
    (key s : JSString) :
  all_strings o -> all_strings (overwrite o key (JSStr s)).
Proof.
  unfold all_strings. induction 1 as [|[k w] o Hk Ho IH]; [constructor|].
  cbn [overwrite]. destruct (JSString_eqb k key).
  - apply Forall_cons; [exists s; reflexivity|assumption].
  - apply Forall_cons; assumption.
Qed.

Lemma all_strings_set (o : list (JSString * JSValue)) (key s : JSString) :
  all_strings o -> all_strings (set_string_property o key s).
Proof.
  intros H. unfold set_string_property.
  destruct (own_property o key); [apply all_strings_overwrite, H|].
  destruct (JSString_eqb key (str "__proto__")); [exact H|].
  apply Forall_app. split; [exact H|].
  apply Forall_cons; [exists s; reflexivity|constructor].
Qed.

Lemma all_strings_fold (entries acc : list (JSString * JSValue)) :
  all_strings acc ->
  all_strings
    (fold_left
       (fun output kv =>
          match snd kv with
          | JSStr value => set_string_property output (fst kv) value
          | _ => output
          end) entries acc).
Proof.
  revert acc. induction entries as [|[k v] entries IH]; intros acc H;
    [exact H|].
  cbn [fold_left fst snd]. apply IH.
  destruct v; try exact H. apply all_strings_set, H.
Qed.

Lemma makeSafeQs_outcomes (v : JSValue) :
  (v = JSUndefined /\ makeSafeQs v = Abrupt TypeError)
  \/ (v <> JSUndefined
      /\ exists safe, makeSafeQs v = Normal safe /\ all_strings safe).
Proof.
  unfold makeSafeQs.
  destruct v; cbn [Object_entries];
    [left; split; reflexivity|right; split; [discriminate|]..];
    (eexists; split; [reflexivity|apply all_strings_fold; constructor]).
Qed.

Lemma get_property_strings (o : list (JSString * JSValue))
    (key : JSString) :
  all_strings o -> inherited key = false ->
  get_property o key = JSUndefined \/ exists s, get_property o key = JSStr s.
Proof.
  intros Ho Hk. unfold get_property.
  destruct (own_property o key) as [v|] eqn:E.
  - apply own_property_In in E.
    unfold all_strings in Ho. rewrite Forall_forall in Ho.
    destruct (Ho _ E) as [s Hs]. cbn [snd] in Hs. right. exists s. exact Hs.
  - rewrite Hk. left. reflexivity.
Qed.

(** X14. For a key that names no member of [Object.prototype],
    [getValueFromQueryString] returns a string or [undefined] and nothing
    else, whatever the query object holds; it throws exactly when the value
    of the key is an array with no first element (or with [undefined]
    first), and what it throws then is a TypeError. *)
Theorem getValueFromQueryString_outcomes
    (qs : list (JSString * JSValue)) (key : JSString) :
  inherited key = false ->
  (forall v, getValueFromQueryString qs key = Normal v ->
     v = JSUndefined \/ exists s, v = JSStr s)
  /\ (forall e, getValueFromQueryString qs key = Abrupt e -> e = TypeError)
  /\ (getValueFromQueryString qs key = Abrupt TypeError
      <-> exists l, get_property qs key = JSArray l
                    /\ nth 0 l JSUndefined = JSUndefined).
Proof.
  intros Hk. unfold getValueFromQueryString.
  assert (Hsafe : forall p : JSValue,
    p <> JSUndefined ->
    exists v, match p with
              | JSStr s => Normal (JSStr s)
              | _ =>
                match makeSafeQs p with
                | Abrupt e => Abrupt e
                | Normal property => Normal (get_property property key)
                end
              end = Normal v
              /\ (v = JSUndefined \/ exists s, v = JSStr s)).
  { intros p Hp.
    destruct (makeSafeQs_outcomes p) as [[E _]|[_ (safe & E & Hs)]];
      [contradiction|].
    destruct p; try contradiction;
      try (rewrite E; eexists; split;
           [reflexivity|apply get_property_strings; assumption]).
    eexists. split; [reflexivity|]. right. eexists. reflexivity. }
  destruct (get_property qs key) as [|s|l|o|n] eqn:Ep; cbn [truthy].
  - split; [|split; [|split]].
    + intros v E. injection E as <-. left. reflexivity.
    + discriminate.
    + discriminate.
    + intros (l & E & _). discriminate.
  - destruct s as [|c s].
    + split; [|split; [|split]].
      * intros v E. injection E as <-. left. reflexivity.
      * discriminate.
      * discriminate.
      * intros (l & E & _). discriminate.
    + split; [|split; [|split]].
      * intros v E. injection E as <-. right. eexists. reflexivity.
      * discriminate.
      * discriminate.
      * intros (l & E & _). discriminate.
  - pose proof (Hsafe (nth 0 l JSUndefined)) as Hn.
    destruct (nth 0 l JSUndefined) as [|s'|l'|o'|n'] eqn:E0.
    + unfold makeSafeQs. cbn [Object_entries]. split; [|split; [|split]].
      * discriminate.
      * intros e E. injection E as <-. reflexivity.
      * intros _. exists l. split; [reflexivity|exact E0].
      * reflexivity.
    + split; [|split; [|split]].
      * intros v E. injection E as <-. right. eexists. reflexivity.
      * discriminate.
      * discriminate.
      * intros (l0 & E & H0). injection E as <-. congruence.
    + destruct Hn as (v & Ev & Hv); [discriminate|]. rewrite Ev.
      split; [|split; [|split]].
      * intros v0 E. injection E as <-. exact Hv.
      * discriminate.
      * discriminate.
      * intros (l0 & E & H0). injection E as <-. congruence.
    + destruct Hn as (v & Ev & Hv); [discriminate|]. rewrite Ev.
      split; [|split; [|split]].
      * intros v0 E. injection E as <-. exact Hv.
      * discriminate.
      * discriminate.
      * intros (l0 & E & H0). injection E as <-. congruence.
    + destruct Hn as (v & Ev & Hv); [discriminate|]. rewrite Ev.
      split; [|split; [|split]].
      * intros v0 E. injection E as <-. exact Hv.
      * discriminate.
      * discriminate.
      * intros (l0 & E & H0). injection E as <-. congruence.
  - pose proof (Hsafe (JSObject o)) as Hn.
    destruct Hn as (v & Ev & Hv); [discriminate|]. rewrite Ev.
    split; [|split; [|split]].
    + intros v0 E. injection E as <-. exact Hv.
    + discriminate.
    + discriminate.
    + intros (l0 & E & H0). discriminate.
  - pose proof (Hsafe (JSBuiltin n)) as Hn.
    destruct Hn as (v & Ev & Hv); [discriminate|]. rewrite Ev.
    split; [|split; [|split]].
    + intros v0 E. injection E as <-. exact Hv.
    + discriminate.
    + discriminate.
    + intros (l0 & E & H0). discriminate.
Qed.

Lemma getValueFromQueryString_outcomes_witness :
  inherited (str "name") = false
  /\ (forall v,
        getValueFromQueryString
          [(str "name", JSArray [JSStr (str "a"); JSStr (str "b")])]
          (str "name") = Normal v ->
        v = JSUndefined \/ exists s, v = JSStr s)
  /\ (forall e,
        getValueFromQueryString
          [(str "name", JSArray [JSStr (str "a"); JSStr (str "b")])]
          (str "name") = Abrupt e -> e = TypeError)
  /\ (getValueFromQueryString
        [(str "name", JSArray [JSStr (str "a"); JSStr (str "b")])]
        (str "name") = Abrupt TypeError
      <-> exists l,
            get_property
              [(str "name", JSArray [JSStr (str "a"); JSStr (str "b")])]
              (str "name") = JSArray l
            /\ nth 0 l JSUndefined = JSUndefined).
Proof.
  split; [reflexivity|].
  apply (getValueFromQueryString_outcomes
           [(str "name", JSArray [JSStr (str "a"); JSStr (str "b")])]
           (str "name")).
  reflexivity.
Defined.

(** X15. A key that names a member of [Object.prototype] and is no own
    property of the object comes back as that member, which is neither a
    string nor [undefined]: from [getValueFromQueryString] and from
    [getValueFromHeaders] alike. *)
Theorem inherited_key_returns_builtin
    (o : list (JSString * JSValue)) (key : JSString) :
  inherited key = true -> own_property o key = None ->
  getValueFromQueryString o key = Normal (JSBuiltin key)
  /\ getValueFromHeaders o key = JSBuiltin key.
Proof.
  intros Hk Ho.
  unfold getValueFromQueryString, getValueFromHeaders, get_property.
  rewrite Ho, Hk. cbn [truthy]. unfold makeSafeQs.
  cbn [Object_entries fold_left]. unfold get_property.
  cbn [own_property find option_map]. split; reflexivity.
Qed.

Lemma inherited_key_returns_builtin_witness :
  inherited (str "constructor") = true
  /\ own_property [(str "name", JSStr (str "a"))] (str "constructor") = None
  /\ getValueFromQueryString [(str "name", JSStr (str "a"))]
       (str "constructor") = Normal (JSBuiltin (str "constructor"))
  /\ getValueFromHeaders [(str "name", JSStr (str "a"))] (str "constructor")
     = JSBuiltin (str "constructor").
Proof.
  split; [reflexivity|]. split; [reflexivity|].
  apply (inherited_key_returns_builtin [(str "name", JSStr (str "a"))]
           (str "constructor")); reflexivity.
Defined.

(** X16. On a header table whose values are strings, arrays of strings or
    [undefined], and for a key that names no member of [Object.prototype],
    [getValueFromHeaders] returns a string or [undefined], and
    [getValueFromQueryString] returns the same value, except where the
    value of the key is the empty array: there [getValueFromHeaders]
    returns [undefined] and [getValueFromQueryString] throws a TypeError. *)
Theorem getValueFromHeaders_agrees
    (headers : list (JSString * JSValue)) (key : JSString) :
  IncomingHttpHeaders headers -> inherited key = false ->
  (getValueFromHeaders headers key = JSUndefined
   \/ exists s, getValueFromHeaders headers key = JSStr s)
  /\ (get_property headers key <> JSArray [] ->
      getValueFromQueryString headers key
      = Normal (getValueFromHeaders headers key))
  /\ (get_property headers key = JSArray [] ->
      getValueFromHeaders headers key = JSUndefined
      /\ getValueFromQueryString headers key = Abrupt TypeError).
Proof.
  intros Hh Hk.
  assert (Hv : string_or_strings (get_property headers key) = true).
  { unfold get_property. destruct (own_property headers key) as [v|] eqn:E.
    - apply own_property_In in E. unfold IncomingHttpHeaders in Hh.
      rewrite Forall_forall in Hh. apply (Hh _ E).
    - rewrite Hk. reflexivity. }
  unfold getValueFromHeaders, getValueFromQueryString.
  destruct (get_property headers key) as [|s|l|o|n]; cbn [truthy];
    try discriminate Hv.
  - split; [left; reflexivity|]. split; [reflexivity|discriminate].
  - destruct s as [|c s].
    + split; [left; reflexivity|]. split; [reflexivity|discriminate].
    + split; [right; eexists; reflexivity|].
      split; [reflexivity|discriminate].
  - destruct l as [|e l]; cbn [nth].
    + split; [left; reflexivity|]. split; [congruence|].
      intros _. split; reflexivity.
    + cbn [string_or_strings forallb] in Hv.
      destruct e; try discriminate Hv.
      split; [right; eexists; reflexivity|].
      split; [reflexivity|discriminate].
Qed.

Lemma getValueFromHeaders_agrees_witness :
  IncomingHttpHeaders
    [(str "x-nintendo-pid", JSStr (str "17")); (str "set-cookie", JSArray [])]
  /\ inherited (str "set-cookie") = false
  /\ (getValueFromHeaders
        [(str "x-nintendo-pid", JSStr (str "17"));
         (str "set-cookie", JSArray [])] (str "set-cookie") = JSUndefined
      \/ exists s,
           getValueFromHeaders
             [(str "x-nintendo-pid", JSStr (str "17"));
              (str "set-cookie", JSArray [])] (str "set-cookie") = JSStr s)
  /\ (get_property
        [(str "x-nintendo-pid", JSStr (str "17"));
         (str "set-cookie", JSArray [])] (str "set-cookie") <> JSArray [] ->
      getValueFromQueryString
        [(str "x-nintendo-pid", JSStr (str "17"));
         (str "set-cookie", JSArray [])] (str "set-cookie")
      = Normal
          (getValueFromHeaders
             [(str "x-nintendo-pid", JSStr (str "17"));
              (str "set-cookie", JSArray [])] (str "set-cookie")))
  /\ (get_property
        [(str "x-nintendo-pid", JSStr (str "17"));
         (str "set-cookie", JSArray [])] (str "set-cookie") = JSArray [] ->
      getValueFromHeaders
        [(str "x-nintendo-pid", JSStr (str "17"));
         (str "set-cookie", JSArray [])] (str "set-cookie") = JSUndefined
      /\ getValueFromQueryString
           [(str "x-nintendo-pid", JSStr (str "17"));
            (str "set-cookie", JSArray [])] (str "set-cookie")
         = Abrupt TypeError).
Proof.
  split; [repeat constructor|]. split; [reflexivity|].
  apply (getValueFromHeaders_agrees
           [(str "x-nintendo-pid", JSStr (str "17"));
            (str "set-cookie", JSArray [])] (str "set-cookie"));
    [repeat constructor|reflexivity].
Defined.

Lemma makeSafeQs_fold (o acc : list (JSString * JSValue)) :
  NoDup (map fst o) ->
  (forall k, In k (map fst o) -> own_property acc k = None) ->
  fold_left
    (fun output kv =>
       match snd kv with
       | JSStr value => set_string_property output (fst kv) value
       | _ => output
       end) o acc
  = acc ++ filter copied_by_makeSafeQs o.
Proof.
  revert acc. induction o as [|[k v] o IH]; intros acc Hnd Hacc.
  - cbn. rewrite app_nil_r. reflexivity.
  - cbn [map fst] in Hnd, Hacc. apply NoDup_cons_iff in Hnd.
    destruct Hnd as [Hk Hnd].
    assert (Ho : forall k', In k' (map fst o) -> own_property acc k' = None)
      by (intros k' Hin; apply Hacc; right; exact Hin).
    cbn [fold_left filter snd fst]. unfold copied_by_makeSafeQs at 1.
    cbn [snd fst].
    destruct v as [|s|l|p|n]; try (apply IH; assumption).
    unfold set_string_property. rewrite (Hacc k) by (left; reflexivity).
    destruct (JSString_eqb k (str "__proto__")); cbn [negb].
    + apply IH; assumption.
    + rewrite IH; [rewrite <- app_assoc; reflexivity|exact Hnd|].
      intros k' Hin. rewrite own_property_app, (Ho k' Hin).
      unfold own_property. cbn [find fst].
      destruct (JSString_eqb k k') eqn:E; [|reflexivity].
      apply JSString_eqb_eq in E. subst k'. contradiction.
Qed.

Lemma filter_keys (f : JSString * JSValue -> bool)
    (o : list (JSString * JSValue)) (key : JSString) :
  In key (map fst (filter f o)) -> In key (map fst o).
Proof.
  rewrite !in_map_iff. intros ([k v] & E & Hin).
  apply filter_In in Hin. exists (k, v). tauto.
Qed.

Lemma filter_NoDup_keys (f : JSString * JSValue -> bool)
    (o : list (JSString * JSValue)) :
  NoDup (map fst o) -> NoDup (map fst (filter f o)).
Proof.
  induction o as [|[k v] o IH]; intros H; [exact H|].
  cbn [map fst] in H. apply NoDup_cons_iff in H. destruct H as [Hk H].
  cbn [filter]. destruct (f (k, v)); [|apply IH, H].
  cbn [map fst]. apply NoDup_cons; [|apply IH, H].
  intros Hin. apply Hk. eapply filter_keys, Hin.
Qed.

Lemma filter_twice {A : Type} (f : A -> bool) (l : list A) :
  filter f (filter f l) = filter f l.
Proof.
  induction l as [|x l IH]; [reflexivity|].
  cbn [filter]. destruct (f x) eqn:E; [|exact IH].
  cbn [filter]. rewrite E, IH. reflexivity.
Qed.

Lemma own_property_copied (o : list (JSString * JSValue)) (key : JSString) :
  NoDup (map fst o) ->
  own_property (filter copied_by_makeSafeQs o) key
  = match own_property o key with
    | Some (JSStr s) =>
      if JSString_eqb key (str "__proto__") then None else Some (JSStr s)
    | _ => None
    end.
Proof.
  induction o as [|[k v] o IH]; intros H; [reflexivity|].
  cbn [map fst] in H. apply NoDup_cons_iff in H. destruct H as [Hk H].
  specialize (IH H). cbn [filter]. unfold own_property at 2.
  cbn [find fst]. destruct (JSString_eqb k key) eqn:E.
  - apply JSString_eqb_eq in E. subst k. cbn [option_map snd].
    assert (Hnone : own_property (filter copied_by_makeSafeQs o) key = None).
    { apply own_property_absent. intros Hin. apply Hk.
      eapply filter_keys, Hin. }
    unfold copied_by_makeSafeQs at 1. cbn [snd fst].
    destruct v as [|s|l|p|n]; try exact Hnone.
    destruct (JSString_eqb key (str "__proto__")); cbn [negb];
      [exact Hnone|].
    unfold own_property. cbn [find fst]. rewrite JSString_eqb_refl.
    reflexivity.
  - fold (own_property o key).
    destruct (copied_by_makeSafeQs (k, v)); [|exact IH].
    unfold own_property at 1. cbn [find fst]. rewrite E. exact IH.
Qed.

(** X13. On a query object, [makeSafeQs] returns an object whose own
    properties are exactly the string-valued properties of the query, with
    their values, the name [__proto__] apart, which is never copied; applied
    to its own result it returns it unchanged. *)
Theorem makeSafeQs_keeps_strings (o : list (JSString * JSValue)) :
  NoDup (map fst o) ->
  exists safe,
    makeSafeQs (JSObject o) = Normal safe
    /\ (forall key,
          own_property safe key
          = match own_property o key with
            | Some (JSStr s) =>
              if JSString_eqb key (str "__proto__") then None
              else Some (JSStr s)
            | _ => None
            end)
    /\ makeSafeQs (JSObject safe) = Normal safe.
Proof.
  intros H. exists (filter copied_by_makeSafeQs o).
  unfold makeSafeQs. cbn [Object_entries].
  rewrite !makeSafeQs_fold;
    try (apply filter_NoDup_keys; exact H); try exact H;
    try (intros k _; reflexivity).
  cbn [app]. rewrite filter_twice. split; [reflexivity|].
  split; [|reflexivity].
  intros key. apply own_property_copied, H.
Qed.

Lemma makeSafeQs_keeps_strings_witness :
  NoDup (map fst [(str "a", JSStr (str "1"));
                  (str "b", JSArray [JSStr (str "2")]);
                  (str "c", JSStr [])])
  /\ exists safe,
       makeSafeQs (JSObject [(str "a", JSStr (str "1"));
                             (str "b", JSArray [JSStr (str "2")]);
                             (str "c", JSStr [])]) = Normal safe
       /\ (forall key,
             own_property safe key
             = match own_property [(str "a", JSStr (str "1"));
                                   (str "b", JSArray [JSStr (str "2")]);
                                   (str "c", JSStr [])] key with
               | Some (JSStr s) =>
                 if JSString_eqb key (str "__proto__") then None
                 else Some (JSStr s)
               | _ => None
               end)
       /\ makeSafeQs (JSObject safe) = Normal safe.
Proof.
  assert (H : NoDup (map fst [(str "a", JSStr (str "1"));
                              (str "b", JSArray [JSStr (str "2")]);
                              (str "c", JSStr [])])).
  { repeat (apply NoDup_cons; [cbv; intuition discriminate|]).
    apply NoDup_nil. }
  split; [exact H|].
  apply (makeSafeQs_keeps_strings
           [(str "a", JSStr (str "1"));
            (str "b", JSArray [JSStr (str "2")]);
            (str "c", JSStr [])]).
  exact H.
Defined.

(* ================================================================= *)
(** * Maps as objects *)

Lemma PropertyKey_eqb_eq (a b : PropertyKey) :
  PropertyKey_eqb a b = true <-> a = b.
Proof.
  destruct a as [s|i], b as [t|j]; cbn [PropertyKey_eqb];
    try (split; discriminate).
  - rewrite JSString_eqb_eq. split; congruence.
  - rewrite Nat.eqb_eq. split; congruence.
Qed.

Lemma PropertyKey_eqb_refl (a : PropertyKey) : PropertyKey_eqb a a = true.
Proof. apply PropertyKey_eqb_eq. reflexivity. Qed.

Lemma PropertyKey_eqb_neq (a b : PropertyKey) :
  a <> b -> PropertyKey_eqb a b = false.
Proof.
  intros H. destruct (PropertyKey_eqb a b) eqn:E; [|reflexivity].
  apply PropertyKey_eqb_eq in E. contradiction.
Qed.

Section Properties_of_fromEntries.
Context {A : Type}.

Lemma own_lookup_define (o : list (PropertyKey * A)) (k k' : PropertyKey)
    (v : A) :
  own_lookup (define_property o k v) k'
  = if PropertyKey_eqb k k' then Some v else own_lookup o k'.
Proof.
  unfold own_lookup. induction o as [|[k0 w] o IH]; cbn [define_property].
  - cbn [find fst]. destruct (PropertyKey_eqb k k'); reflexivity.
  - destruct (PropertyKey_eqb k0 k) eqn:E0.
    + apply PropertyKey_eqb_eq in E0. subst k0. cbn [find fst].
      destruct (PropertyKey_eqb k k'); reflexivity.
    + cbn [find fst]. destruct (PropertyKey_eqb k0 k') eqn:E1.
      * apply PropertyKey_eqb_eq in E1. subst k0.
        destruct (PropertyKey_eqb k k') eqn:E2; [|reflexivity].
        apply PropertyKey_eqb_eq in E2. subst k'.
        rewrite PropertyKey_eqb_refl in E0. discriminate.
      * exact IH.
Qed.

Lemma own_lookup_fold_other (entries o : list (PropertyKey * A))
    (key : PropertyKey) :
  Forall (fun kv => fst kv <> key) entries ->
  own_lookup
    (fold_left (fun o kv => define_property o (fst kv) (snd kv)) entries o)
    key
  = own_lookup o key.
Proof.
  intros H. revert o. induction H as [|[k v] entries Hk _ IH]; intros o;
    [reflexivity|].
  cbn [fold_left fst snd]. rewrite IH, own_lookup_define.
  rewrite PropertyKey_eqb_neq by exact Hk. reflexivity.
Qed.

Lemma length_define_property (o : list (PropertyKey * A)) (k : PropertyKey)
    (v : A) :
  (length (define_property o k v) <= S (length o))%nat.
Proof.
  induction o as [|[k0 w] o IH]; cbn [define_property length]; [lia|].
  destruct (PropertyKey_eqb k0 k); cbn [length]; lia.
Qed.

Lemma length_fold_define (entries o : list (PropertyKey * A)) :
  (length
     (fold_left (fun o kv => define_property o (fst kv) (snd kv)) entries o)
   <= length o + length entries)%nat.
Proof.
  revert o. induction entries as [|[k v] entries IH]; intros o;
    cbn [fold_left length fst snd]; [lia|].
  specialize (IH (define_property o k v)).
  pose proof (length_define_property o k v). lia.
Qed.

End Properties_of_fromEntries.

Section MapLookup.
Context {K V : Type}.
Variable ToPropertyKey : K -> PropertyKey.

(** X17. The object [mapToObject] builds has, under the property key of a
    map key, the value of the last entry whose key converts to that
    property key (a nested map converted in turn), so that of two keys
    that convert alike the later one wins; it has no property under a key
    that no entry converts to, and no more properties than the map has
    entries. *)
Theorem mapToObject_lookup (before after : list (K * (V + JSMap K V)))
    (k : K) (v : V + JSMap K V) :
  Forall (fun kv => ToPropertyKey (fst kv) <> ToPropertyKey k) after ->
  let o :=
    properties_of
      (mapToObject ToPropertyKey (MapOf (before ++ (k, v) :: after))) in
  own_lookup o (ToPropertyKey k)
  = Some match v with
         | inl x => inl x
         | inr m => inr (mapToObject ToPropertyKey m)
         end
  /\ (forall key,
        Forall (fun kv => ToPropertyKey (fst kv) <> key)
          (before ++ (k, v) :: after) ->
        own_lookup o key = None)
  /\ (length o <= length (before ++ (k, v) :: after))%nat.
Proof.
  intros Hafter o. subst o. cbn [mapToObject properties_of].
  unfold Object_fromEntries. split; [|split].
  - rewrite map_app. cbn [map]. rewrite fold_left_app. cbn [fold_left].
    rewrite own_lookup_fold_other.
    + rewrite own_lookup_define. destruct v as [x|m]; cbn [fst snd];
        rewrite PropertyKey_eqb_refl; reflexivity.
    + apply Forall_map. eapply Forall_impl; [|exact Hafter].
      intros [k' v'] H. cbn [fst snd] in *. destruct v'; exact H.
  - intros key H. rewrite own_lookup_fold_other; [reflexivity|].
    apply Forall_map. eapply Forall_impl; [|exact H].
    intros [k' v'] H'. cbn [fst snd] in *. destruct v'; exact H'.
  - etransitivity; [apply length_fold_define|].
    rewrite length_map. cbn [length]. lia.
Qed.

End MapLookup.

Lemma mapToObject_lookup_witness :
  Forall (fun kv : (Z + JSString) * (JSString + JSMap (Z + JSString) JSString)
          => sample_ToPropertyKey (fst kv)
             <> sample_ToPropertyKey (inr (str "1"))) []
  /\ let o :=
       properties_of
         (mapToObject sample_ToPropertyKey
            (MapOf (sample_entries_before
                    ++ (inr (str "1"), inr sample_inner_map) :: []))) in
     own_lookup o (sample_ToPropertyKey (inr (str "1")))
     = Some (inr (mapToObject sample_ToPropertyKey sample_inner_map))
     /\ (forall key,
           Forall (fun kv => sample_ToPropertyKey (fst kv) <> key)
             (sample_entries_before
              ++ (inr (str "1"), inr sample_inner_map) :: []) ->
           own_lookup o key = None)
     /\ (length o
         <= length (sample_entries_before
                    ++ (inr (str "1"), inr sample_inner_map) :: []))%nat.
Proof.
  split; [constructor|].
  apply (mapToObject_lookup sample_ToPropertyKey
           sample_entries_before [] (inr (str "1")) (inr sample_inner_map)).
  constructor.
Defined.

(* ================================================================= *)
(** * Tokens in links *)

Lemma encodeURIComponent_unreserved (s : JSString) :
  Forall (fun c => uri_unreserved c = true) s ->
  encodeURIComponent s = Normal s.
Proof.
  induction 1 as [|c s Hc _ IH]; [reflexivity|].
  cbn [encodeURIComponent]. rewrite Hc, IH. reflexivity.
Qed.

Lemma nintendo_alphabet_unreserved (c : Z) :
  nintendo_alphabet c = true -> uri_unreserved c = true.
Proof.
  unfold nintendo_alphabet, uri_unreserved. cbn [existsb].
  destruct ((chr "A" <=? c) && (c <=? chr "Z")),
    ((chr "a" <=? c) && (c <=? chr "z")),
    ((chr "0" <=? c) && (c <=? chr "9")); cbn [orb]; try reflexivity.
  destruct (c =? chr "."), (c =? chr "-"), (c =? chr "*"); cbn [orb];
    intros H; try discriminate H; rewrite ?orb_true_r; reflexivity.
Qed.

Lemma encodeURIComponent_base64_char (n : Z) (r e : JSString) :
  0 <= n < 64 ->
  encodeURIComponent r = Normal e ->
  encodeURIComponent (base64_char n :: r)
  = Normal (escape_base64 (base64_char n) ++ e).
Proof.
  intros Hn Hr. unfold base64_char.
  destruct (n <? 26) eqn:E1;
    [|destruct (n <? 52) eqn:E2;
      [|destruct (n <? 62) eqn:E3; [|destruct (n =? 62) eqn:E4]]].
  4, 5: cbn; rewrite Hr; reflexivity.
  all: cbn [encodeURIComponent];
    match goal with
    | |- context [uri_unreserved ?c] =>
      replace (uri_unreserved c) with true;
        [replace (escape_base64 c) with [c]|]
    end;
    try (rewrite Hr; reflexivity);
    unfold escape_base64, uri_unreserved; cbn [existsb];
    change (chr "A") with 65; change (chr "Z") with 90;
    change (chr "a") with 97; change (chr "z") with 122;
    change (chr "0") with 48; change (chr "9") with 57;
    change (chr "+") with 43; change (chr "/") with 47;
    change (chr "=") with 61; change (chr "-") with 45;
    change (chr "_") with 95; change (chr ".") with 46;
    change (chr "!") with 33; change (chr "~") with 126;
    change (chr "*") with 42; change (chr "'") with 39;
    change (chr "(") with 40; change (chr ")") with 41.
  all: try (repeat (destruct_if; try lia); reflexivity).
  all: symmetry; rewrite !orb_true_iff, !andb_true_iff, !Z.leb_le; lia.
Qed.

Lemma encodeURIComponent_pad (r e : JSString) :
  encodeURIComponent r = Normal e ->
  encodeURIComponent (chr "=" :: r) = Normal (escape_base64 (chr "=") ++ e).
Proof. intros Hr. cbn. rewrite Hr. reflexivity. Qed.

Lemma encodeURIComponent_base64 (b : Buffer) :
  encodeURIComponent (toString_base64 b)
  = Normal (flat_map escape_base64 (toString_base64 b)).
Proof.
  induction b as [|x|x y|x y z r IH] using list_ind3; cbn [toString_base64].
  - reflexivity.
  - destruct (sextets_of_bytes x x00 x00) as [[Ha [Hb _]] _].
    change (b2z x00) with 0 in *. rewrite Z.add_0_r in Hb.
    cbn [flat_map].
    repeat first [apply encodeURIComponent_base64_char; [assumption|]
                 | apply encodeURIComponent_pad].
    reflexivity.
  - destruct (sextets_of_bytes x y x00) as [[Ha [Hb [Hc _]]] _].
    change (b2z x00) with 0 in *. rewrite Z.add_0_r in Hc.
    cbn [flat_map].
    repeat first [apply encodeURIComponent_base64_char; [assumption|]
                 | apply encodeURIComponent_pad].
    reflexivity.
  - destruct (sextets_of_bytes x y z) as [[Ha [Hb [Hc Hd]]] _].
    cbn [flat_map].
    repeat (apply encodeURIComponent_base64_char; [assumption|]).
    exact IH.
Qed.

(** X18. [encodeURIComponent] leaves every text of [nintendoBase64Encode]
    as it is, and never raises on a standard base64 text (such as the wire
    text of a token), in which it replaces each [+], [/] and [=] by its
    percent escape and nothing else. *)
Theorem encodeURIComponent_of_base64 (d : JSString + Buffer) :
  encodeURIComponent (nintendoBase64Encode d)
  = Normal (nintendoBase64Encode d)
  /\ encodeURIComponent (toString_base64 (Buffer_from d))
     = Normal (flat_map escape_base64 (toString_base64 (Buffer_from d))).
Proof.
  split; [|apply encodeURIComponent_base64].
  apply encodeURIComponent_unreserved.
  rewrite nintendoBase64Encode_subst. apply Forall_map.
  eapply Forall_impl; [|apply nintendo_alphabet_text].
  intros c Hc. apply nintendo_alphabet_unreserved, Hc.
Qed.

Section ResetMail.
Context {crypto : Crypto}.

(** X19. Whatever the account, the keys, the random draws and the time,
    [sendForgotPasswordEmail] hands the mailer a message (it never throws
    before that), and the reset link of the message, in the link field and
    at the end of the text alike, ends in [token=] with no token after
    it. *)
Theorem reset_link_has_no_token (keys : ServiceKeys) (rnd : Entropy)
    (publicKey : Buffer) (website_base : JSString) (now : Z) (pnid : PNID) :
  exists m,
    sendForgotPasswordEmail keys rnd publicKey website_base now pnid
    = Normal m
    /\ link_href (mail_link m)
       = website_base ++ str "/account/reset-password?token="
    /\ (exists before, mail_text m = before ++ link_href (mail_link m))
    /\ mail_to m = pnid_email_address pnid.
Proof.
  unfold sendForgotPasswordEmail.
  assert (E : passwordResetToken keys rnd publicKey (pnid_pid pnid)
                (pnid_access_level pnid) now = Ok None).
  { unfold passwordResetToken. apply generateToken_gate.
    cbn. apply orb_true_r. }
  rewrite E. cbn [or_empty encodeURIComponent].
  eexists. split; [reflexivity|].
  cbn [mail_link link_href mail_text mail_to]. rewrite !app_nil_r.
  split; [reflexivity|]. split; [|reflexivity].
  eexists. rewrite !app_assoc. reflexivity.
Qed.

End ResetMail.
(* ================================================================= *)
(** * How [generateToken] ends with crypto material *)

Lemma long_fields_in_range_dec (F : TokenOptions) :
  long_fields_in_range F \/ ~ long_fields_in_range F.
Proof.
  unfold long_fields_in_range.
  destruct (fields_in_range_dec F) as [HF|HF]; [|right; tauto].
  destruct (access_level F) as [al|], (title_id F) as [tid|];
    try (right; tauto).
  destruct (Z_le_dec 0 al), (Z_lt_dec al 256), (Z_le_dec 0 tid),
    (Z_lt_dec tid (2 ^ 64)); try (left; tauto); right; tauto.
Qed.

Section LongErrors.
Context {crypto : Crypto}.

Lemma generateToken_long_range_error (keys : ServiceKeys) (rnd : Entropy)
    (co : CryptoOptions) (F : TokenOptions) :
  falsy (access_level F) || falsy (title_id F) = false ->
  ~ long_fields_in_range F ->
  generateToken keys rnd (Some co) F = Throw RangeError.
Proof.
  intros Hg HF. unfold long_fields_in_range, fields_in_range in HF.
  unfold generateToken. rewrite Hg.
  apply orb_false_iff in Hg. destruct Hg as [Ha Ht].
  destruct (access_level F) as [al|]; [|discriminate Ha].
  destruct (title_id F) as [tid|]; [|discriminate Ht].
  change (2 ^ 32) with (256 ^ Z.of_nat 4) in HF.
  change (2 ^ 64) with (256 ^ Z.of_nat 8) in HF.
  change 256 with (256 ^ Z.of_nat 1) in HF at 1 3 6.
  unfold writeUInt8, writeUInt32LE, writeBigUInt64LE.
  write_or_raise (system_type F) 1%nat.
  write_or_raise (token_type F) 1%nat.
  write_or_raise (pid F) 4%nat.
  write_or_raise al 1%nat.
  write_or_raise tid 8%nat.
  write_or_raise (expire_time F) 8%nat.
  exfalso. apply HF. repeat split; assumption.
Qed.

(** X20. With crypto material whose RSA ciphertext has 128 bytes,
    [generateToken] ends in one of three ways, whatever the service keys:
    it returns [null] when [access_level] or [title_id] is missing or zero;
    otherwise it raises a RangeError exactly when one of the six fields does
    not fit its width, and returns a token exactly when all six fit.  It
    raises no other error. *)
Theorem generateToken_long_outcomes (keys : ServiceKeys) (rnd : Entropy)
    (co : CryptoOptions) (F : TokenOptions) :
  length (rsa_oaep_encrypt (public_key co) (oaep_seed rnd)
            (randomBytes16 rnd)) = 128%nat ->
  entropy_ok rnd ->
  let gate := falsy (access_level F) || falsy (title_id F) in
  (generateToken keys rnd (Some co) F = Ok None <-> gate = true)
  /\ (generateToken keys rnd (Some co) F = Throw RangeError
      <-> gate = false /\ ~ long_fields_in_range F)
  /\ ((exists wire, generateToken keys rnd (Some co) F = Ok (Some wire))
      <-> gate = false /\ long_fields_in_range F)
  /\ (forall e, generateToken keys rnd (Some co) F = Throw e ->
      e = RangeError).
Proof.
  intros Hek Hrnd gate. subst gate.
  destruct (falsy (access_level F) || falsy (title_id F)) eqn:Hg.
  - assert (E : generateToken keys rnd (Some co) F = Ok None)
      by (unfold generateToken; rewrite Hg; reflexivity).
    rewrite E. split; [tauto|].
    split; [split; [discriminate|intros [H _]; discriminate H]|].
    split; [split; [intros [w Hw]; discriminate Hw
                   |intros [H _]; discriminate H]|].
    discriminate.
  - destruct (long_fields_in_range_dec F) as [HF|HF].
    + assert (E : exists wire,
                generateToken keys rnd (Some co) F = Ok (Some wire)).
      { pose proof Hg as Hg'. apply orb_false_iff in Hg'.
        destruct Hg' as [Ha Ht]. destruct HF as [HF Hal].
        destruct (access_level F) as [al|] eqn:Ea; [|contradiction].
        destruct (title_id F) as [tid|] eqn:Et; [|contradiction].
        cbn [falsy] in Ha, Ht. apply Z.eqb_neq in Ha, Ht.
        destruct Hal as [Hal Htid].
        destruct (generateToken_long_wire keys rnd co F al tid Hek Hrnd
                    Ea Et Ha Ht HF Hal Htid) as (_ & _ & E).
        eexists. exact E. }
      destruct E as [wire E]. rewrite E.
      split; [split; discriminate|].
      split; [split; [discriminate|tauto]|].
      split; [split; [tauto|intros _; eexists; reflexivity]|].
      discriminate.
    + rewrite (generateToken_long_range_error keys rnd co F Hg HF).
      split; [split; discriminate|].
      split; [tauto|].
      split; [split; [intros [w Hw]; discriminate Hw|tauto]|].
      intros e E. injection E as <-. reflexivity.
Qed.

End LongErrors.

Lemma generateToken_long_outcomes_witness :
  length (@rsa_oaep_encrypt xor_crypto (public_key sample_crypto_options)
            (oaep_seed sample_entropy) (randomBytes16 sample_entropy))
  = 128%nat
  /\ entropy_ok sample_entropy
  /\ let gate :=
       falsy (access_level sample_long_fields)
       || falsy (title_id sample_long_fields) in
     (@generateToken xor_crypto sample_keys sample_entropy
        (Some sample_crypto_options) sample_long_fields = Ok None
      <-> gate = true)
     /\ (@generateToken xor_crypto sample_keys sample_entropy
           (Some sample_crypto_options) sample_long_fields = Throw RangeError
         <-> gate = false /\ ~ long_fields_in_range sample_long_fields)
     /\ ((exists wire,
            @generateToken xor_crypto sample_keys sample_entropy
              (Some sample_crypto_options) sample_long_fields
            = Ok (Some wire))
         <-> gate = false /\ long_fields_in_range sample_long_fields)
     /\ (forall e,
           @generateToken xor_crypto sample_keys sample_entropy
             (Some sample_crypto_options) sample_long_fields = Throw e ->
           e = RangeError).
Proof.
  split; [reflexivity|]. split; [exact sample_entropy_ok|].
  apply (@generateToken_long_outcomes xor_crypto sample_keys sample_entropy
           sample_crypto_options sample_long_fields eq_refl
           sample_entropy_ok).
Defined.
